(** * fNIRS channel-layout checks of [mne/preprocessing/nirs/nirs.py]

    A shallow embedding of the validation and query functions of the module
    and the properties stated about them.  Channel names are Python strings,
    modelled as [string] (code points below 256); location entries are IEEE
    binary64 numbers, modelled by the primitive [float]; Python exceptions are
    an explicit error result. *)

From Stdlib Require Import Ascii String.
From Stdlib Require Import List Sorted Permutation Bool Arith ZArith Lia.
From Stdlib Require Import Floats.
Import ListNotations.

Set Implicit Arguments.

(** ** Exceptions *)

(** The [ValueError]s of [_check_channels_ordered], one per message. *)
Inductive value_error :=
| MixedTypes          (* amplitude/optical density together with haemoglobin *)
| OddCount            (* an even number of NIRS channels is required *)
| MissingWavelength   (* a NaN at loc[9] of a wavelength channel *)
| BadChromophore      (* a label other than hbo or hbr *)
| Unparseable         (* the channel names can not be parsed *)
| NotOrdered          (* source detector pairs with alternating values *)
| Broadcast           (* numpy: operands could not be broadcast together *)
| BadPicks.           (* picks outside the channels *)

Inductive exn :=
| ValueError (e : value_error)
| RuntimeError        (* NIRS bad labelling is not consistent *)
| AttributeError      (* 'NoneType' object has no attribute 'groups' *)
| UnboundLocalError   (* a local variable read before it is assigned *)
| IndexError.

Inductive result (A : Type) :=
| Ok (a : A)
| Raise (e : exn).
Arguments Ok {A} a.
Arguments Raise {A} e.

Definition bind {A B} (r : result A) (k : A -> result B) : result B :=
  match r with
  | Ok a => k a
  | Raise e => Raise e
  end.

Notation "x <- r ;; k" := (bind r (fun x => k))
  (at level 61, r at next level, right associativity).
Notation "r ;;; k" := (bind r (fun _ => k))
  (at level 61, right associativity).

Definition raises {A} (r : result A) : Prop := exists e, r = Raise e.

(** A Python subscript [l[i]] on a list. *)
Definition subscript {A} (l : list A) (i : nat) : result A :=
  match nth_error l i with
  | Some a => Ok a
  | None => Raise IndexError
  end.

(** [for x in l: body] over a state [s], stopping at the first exception. *)
Fixpoint for_each {A S} (l : list A) (body : A -> S -> result S) (s : S)
  : result S :=
  match l with
  | [] => Ok s
  | x :: l' => s' <- body x s ;; for_each l' body s'
  end.

(** The slices [l[a:b]] and [l[::2]]. *)
Definition slice {A} (a b : nat) (l : list A) : list A :=
  firstn (b - a) (skipn a l).

Fixpoint evens {A} (l : list A) : list A :=
  match l with
  | [] => []
  | [x] => [x]
  | x :: _ :: l' => x :: evens l'
  end.

(** ** The channel-metadata record *)

Inductive ch_type :=
| fnirs_cw_amplitude
| fnirs_od
| hbo
| hbr
| other.

Definition ch_type_eqb (a b : ch_type) : bool :=
  match a, b with
  | fnirs_cw_amplitude, fnirs_cw_amplitude
  | fnirs_od, fnirs_od
  | hbo, hbo
  | hbr, hbr
  | other, other => true
  | _, _ => false
  end.

Record channel := {
  ch_name : string;
  kind : ch_type;
  loc : list float
}.

Record Info := {
  chs : list channel;
  bads : list string
}.

(** [info.ch_names], the names of [info['chs']] in order.  The host toolkit
    identifies a channel by its name and keeps the names of a record all
    different; a statement that relies on this invariant of the data model
    carries it as the hypothesis [NoDup (ch_names info)]. *)
Definition ch_names (info : Info) : list string := map ch_name (chs info).

(** The indices, counted from [i], of the channels of [l] that [keep]
    accepts, in increasing order. *)
Fixpoint picks_from (i : nat) (keep : channel -> bool) (l : list channel)
  : list nat :=
  match l with
  | [] => []
  | c :: l' => if keep c then i :: picks_from (S i) keep l'
               else picks_from (S i) keep l'
  end.

Definition has_type (types : list ch_type) (c : channel) : bool :=
  existsb (ch_type_eqb (kind c)) types.

(** Modelled from the spec: [_picks_to_idx] of the host toolkit's [io.pick],
    which is not part of this module.  With a list of channel types it gives
    the indices, in increasing order, of the channels with one of these types
    ([allow_empty=True], [exclude=[]]: no error, nothing left out). *)
Definition _picks_to_idx_types (info : Info) (types : list ch_type) : list nat :=
  picks_from 0 (has_type types) (chs info).

(** The pick ['fnirs']: every fNIRS channel type of the data model. *)
Definition fnirs_types : list ch_type := [fnirs_cw_amplitude; fnirs_od; hbo; hbr].

(** Modelled from the spec: [_picks_to_idx(info, picks, exclude=[])] for a
    selection of channel indices: every channel when no selection is given,
    the selected indices otherwise, which must be indices of channels. *)
Definition _picks_to_idx (info : Info) (picks : option (list nat))
  : result (list nat) :=
  match picks with
  | None => Ok (seq 0 (length (chs info)))
  | Some l =>
      if forallb (fun i => i <? length (chs info)) l then Ok l
      else Raise (ValueError BadPicks)
  end.

(** ** Distances *)

Local Open Scope float_scope.

(** numpy's [a - b] on two one-dimensional arrays, with broadcasting. *)
Definition np_sub (a b : list float) : result (list float) :=
  match a, b with
  | [x], _ => Ok (map (fun y => x - y) b)
  | _, [y] => Ok (map (fun x => x - y) a)
  | _, _ =>
      if Nat.eqb (length a) (length b)
      then Ok (map (fun p => fst p - snd p) (combine a b))
      else Raise (ValueError Broadcast)
  end.

(** The fused multiply-add [x * y + z], rounded once.  The primitive
    numbers have no such operation: it is defined on their specification,
    in the manner of [SFmul] and [SFadd], from the exact sum of the product
    and [z]. *)
Definition SFfma (x y z : spec_float) : spec_float :=
  match x, y with
  | S754_nan, _ | _, S754_nan => S754_nan
  | S754_infinity _, S754_zero _ | S754_zero _, S754_infinity _ => S754_nan
  | S754_infinity sx, S754_infinity sy
  | S754_infinity sx, S754_finite sy _ _
  | S754_finite sx _ _, S754_infinity sy =>
      match z with
      | S754_nan => S754_nan
      | S754_infinity sz => if Bool.eqb (xorb sx sy) sz then z else S754_nan
      | _ => S754_infinity (xorb sx sy)
      end
  | S754_zero sx, S754_zero sy
  | S754_zero sx, S754_finite sy _ _
  | S754_finite sx _ _, S754_zero sy =>
      match z with
      | S754_zero sz =>
          S754_zero (if Bool.eqb (xorb sx sy) sz then sz else false)
      | _ => z
      end
  | S754_finite sx mx ex, S754_finite sy my ey =>
      match z with
      | S754_nan | S754_infinity _ => z
      | S754_zero _ =>
          binary_normalize prec emax
            (cond_Zopp (xorb sx sy) (Zpos (mx * my))) (ex + ey) false
      | S754_finite sz mz ez =>
          let e := Z.min (ex + ey) ez in
          binary_normalize prec emax
            (cond_Zopp (xorb sx sy)
               (Zpos (fst (shl_align (mx * my) (ex + ey) e)))
             + cond_Zopp sz (Zpos (fst (shl_align mz ez e))))%Z
            e false
      end
  end.

(** The operation on the primitive numbers, through their specification. *)
Definition fma (x y z : float) : float :=
  SF2Prim (SFfma (Prim2SF x) (Prim2SF y) (Prim2SF z)).

Section Distances.

(** numpy hands [x.dot(x)] on doubles to the dot product of its BLAS
    library, which for the three elements of a difference of coordinates
    runs [dot += y[i] * x[i]] from the left, starting from [0.0].  Whether
    the product is rounded before it is added, or multiplied and added in
    one fused operation with a single rounding, is left to the platform
    (a processor with a fused multiply-add instruction does the latter):
    [fused] says which. *)
Variable fused : bool.

Definition dot_self (x : list float) : float :=
  fold_left (fun acc v => if fused then fma v v acc else acc + v * v) x 0.

(** [np.linalg.norm] of a one-dimensional array: [sqrt(x.dot(x))]. *)
Definition norm (x : list float) : float := sqrt (dot_self x).

Definition channel_distance (ch : channel) : result float :=
  d <- np_sub (slice 3 6 (loc ch)) (slice 6 9 (loc ch)) ;; Ok (norm d).

(** A list comprehension whose element expression may raise. *)
Fixpoint map_result {A B} (f : A -> result B) (l : list A) : result (list B) :=
  match l with
  | [] => Ok []
  | x :: l' => y <- f x ;; ys <- map_result f l' ;; Ok (y :: ys)
  end.

Definition source_detector_distances (info : Info) (picks : option (list nat))
  : result (list float) :=
  dist <- map_result channel_distance (chs info) ;;
  picks <- _picks_to_idx info picks ;;
  map_result (subscript dist) picks.

(** Binary64 value of a decimal [n / d], rounded to nearest even: what
    Python's [float] gives for a digit string. *)
Definition float_of_ratio (n : N) (d : positive) : float :=
  match n with
  | N0 => 0
  | Npos m =>
      let '(q, e, l) := SFdiv_core_binary prec emax (Zpos m) 0 (Zpos d) 0 in
      SF2Prim (binary_round_aux prec emax false q e l)
  end.

(** The default [threshold=0.01]. *)
Definition default_threshold : float := Eval vm_compute in float_of_ratio 1 100.

Definition short_channels (info : Info) (threshold : option float)
  : result (list bool) :=
  let threshold :=
    match threshold with Some t => t | None => default_threshold end in
  dists <- source_detector_distances info None ;;
  Ok (map (fun d => d <? threshold) dists).

End Distances.

Local Close Scope float_scope.

(** ** Channel names *)

Local Open Scope string_scope.

(** [\d] and [\w] of a Python [str] pattern, on code points below 256. *)
Definition is_digit (c : ascii) : bool :=
  let n := nat_of_ascii c in ((48 <=? n) && (n <=? 57))%nat.

Definition is_word (c : ascii) : bool :=
  let n := nat_of_ascii c in
  (is_digit c
   || ((65 <=? n) && (n <=? 90)) || ((97 <=? n) && (n <=? 122))
   || (n =? 95)
   || (n =? 170) || (n =? 178) || (n =? 179) || (n =? 181)
   || (n =? 185) || (n =? 186) || ((188 <=? n) && (n <=? 190))
   || ((192 <=? n) && (n <=? 214)) || ((216 <=? n) && (n <=? 246))
   || (248 <=? n))%nat.

(** The longest prefix of characters of a class, and what follows it. *)
Fixpoint span (p : ascii -> bool) (s : string) : string * string :=
  match s with
  | String c s' =>
      if p c then let (a, b) := span p s' in (String c a, b)
      else (EmptyString, s)
  | EmptyString => (EmptyString, EmptyString)
  end.

(** [c+] for a character class: greedy, at least one character. *)
Definition some_of (p : ascii -> bool) (s : string) : option (string * string) :=
  match span p s with
  | (EmptyString, _) => None
  | (a, b) => Some (a, b)
  end.

Definition expect (c : ascii) (s : string) : option string :=
  match s with
  | String c' s' => if Ascii.eqb c c' then Some s' else None
  | EmptyString => None
  end.

(** The groups of a match object. *)
Definition groups : Type := string * string * string.

(** The common prefix [S(\d+)_D(\d+) ] of both patterns: the two groups and
    the rest of the name. *)
Definition S_D_prefix (s : string) : option (string * string * string) :=
  match expect "S" s with
  | Some s1 =>
    match some_of is_digit s1 with
    | Some (src, s2) =>
      match expect "_" s2 with
      | Some s3 =>
        match expect "D" s3 with
        | Some s4 =>
          match some_of is_digit s4 with
          | Some (det, s5) =>
            match expect " " s5 with
            | Some s6 => Some (src, det, s6)
            | None => None
            end
          | None => None
          end
        | None => None
        end
      | None => None
      end
    | None => None
    end
  | None => None
  end.

(** [_S_D_F_RE.match(name)]: the prefix, then a third group of digits, an
    optional point and further digits, each taking as much as it can. *)
Definition _S_D_F_RE (name : string) : option groups :=
  match S_D_prefix name with
  | Some (src, det, rest) =>
    match some_of is_digit rest with
    | Some (ip, r1) =>
      match expect "." r1 with
      | Some r2 => Some (src, det, ip ++ "." ++ fst (span is_digit r2))
      | None => Some (src, det, ip)
      end
    | None => None
    end
  | None => None
  end.

(** [_S_D_H_RE.match(name)] for [S(\d+)_D(\d+) (\w+)]. *)
Definition _S_D_H_RE (name : string) : option groups :=
  match S_D_prefix name with
  | Some (src, det, rest) =>
    match some_of is_word rest with
    | Some (w, _) => Some (src, det, w)
    | None => None
    end
  | None => None
  end.

(** [m.groups()[i]]; on [None] the attribute lookup fails. *)
Definition group (i : nat) (m : option groups) : result string :=
  match m with
  | None => Raise AttributeError
  | Some (g0, g1, g2) =>
      match i with 0 => Ok g0 | 1 => Ok g1 | 2 => Ok g2 | _ => Raise IndexError end
  end.

(** [float(s)] on such a third group: the digits as a number over the power
    of ten of the digits after the point. *)
Fixpoint digits_value (acc : N) (s : string) : N :=
  match s with
  | String c s' =>
      digits_value (acc * 10 + (N_of_ascii c - 48))%N s'
  | EmptyString => acc
  end.

Fixpoint pow10 (k : nat) : positive :=
  match k with
  | O => 1
  | S k' => 10 * pow10 k'
  end.

Definition py_float (s : string) : float :=
  let (ip, r) := span is_digit s in
  let fp := match expect "." r with Some r' => r' | None => EmptyString end in
  float_of_ratio (digits_value 0 (ip ++ fp)) (pow10 (String.length fp)).

Local Close Scope string_scope.

(** ** Pair values *)

(** What the third group is compared with: a number (a wavelength) or a
    string (a chromophore label). *)
Inductive pyval :=
| PyFloat (f : float)
| PyStr (s : string).

(** Python's [a != b]: numbers by value, strings by content, a number and a
    string are never equal. *)
Definition py_ne (a b : pyval) : bool :=
  match a, b with
  | PyFloat x, PyFloat y => negb (PrimFloat.eqb x y)
  | PyStr s, PyStr t => negb (String.eqb s t)
  | _, _ => true
  end.

Definition is_hb (s : string) : bool :=
  String.eqb s "hbo" || String.eqb s "hbr".

(** ** Bad labels *)

(** [set(bads).intersection(want)], as the list of its elements. *)
Definition intersection (bads want : list string) : list string :=
  nodup string_dec (filter (fun b => existsb (String.eqb b) want) bads).

Definition _fnirs_check_bads (info : Info) : result unit :=
  let picks := _picks_to_idx_types info fnirs_types in
  for_each (evens picks)
    (fun ii _ =>
       let want := slice ii (ii + 2) (ch_names info) in
       let got := intersection (bads info) want in
       if length got =? 1 then Raise RuntimeError else Ok tt)
    tt.

(** The record is updated in place: the result is the record with its new
    bads. *)
Definition _fnirs_spread_bads (info : Info) : Info :=
  let picks := _picks_to_idx_types info fnirs_types in
  let new_bads :=
    fold_left
      (fun new_bads ii =>
         let bad_opto := intersection (bads info) (slice ii (ii + 2) (ch_names info)) in
         if 0 <? length bad_opto
         then new_bads ++ slice ii (ii + 2) (ch_names info)
         else new_bads)
      (evens picks) [] in
  {| chs := chs info; bads := new_bads |}.

(** ** The naming-convention check *)

Definition _throw_or_return_empty (msg : value_error) (throw_errors : bool)
  : result (list nat) :=
  if throw_errors then Raise (ValueError msg) else Ok [].

(** The match objects and the two values of one pair, as the two branches
    leave them; the values stay unset when neither pattern matches both
    names. *)
Record pair_parse := {
  ch1_name_info : option groups;
  ch2_name_info : option groups;
  values : option (pyval * pyval);
  picks_after : list nat
}.

Definition parse_pair (throw_errors : bool) (name1 name2 : string)
  (picks : list nat) : result pair_parse :=
  match _S_D_F_RE name1, _S_D_F_RE name2 with
  | Some (_, _, v1) as m1, Some (_, _, v2) as m2 =>
      Ok {| ch1_name_info := m1; ch2_name_info := m2;
            values := Some (PyFloat (py_float v1), PyFloat (py_float v2));
            picks_after := picks |}
  | _, _ =>
      match _S_D_H_RE name1, _S_D_H_RE name2 with
      | Some (_, _, v1) as m1, Some (_, _, v2) as m2 =>
          picks <- (if negb (is_hb v1) || negb (is_hb v2)
                    then _throw_or_return_empty BadChromophore throw_errors
                    else Ok picks) ;;
          Ok {| ch1_name_info := m1; ch2_name_info := m2;
                values := Some (PyStr v1, PyStr v2);
                picks_after := picks |}
      | m1, m2 =>
          picks <- _throw_or_return_empty Unparseable throw_errors ;;
          Ok {| ch1_name_info := m1; ch2_name_info := m2;
                values := None;
                picks_after := picks |}
      end
  end.

(** The condition of the last test of the loop body, an [or] of four
    comparisons evaluated from the left as far as needed. *)
Definition pair_mismatch (p : pair_parse) (pair_vals : list pyval) : result bool :=
  s1 <- group 0 (ch1_name_info p) ;;
  s2 <- group 0 (ch2_name_info p) ;;
  if negb (String.eqb s1 s2) then Ok true else
  d1 <- group 1 (ch1_name_info p) ;;
  d2 <- group 1 (ch2_name_info p) ;;
  if negb (String.eqb d1 d2) then Ok true else
  match values p with
  | None => Raise UnboundLocalError
  | Some (first_value, second_value) =>
      v0 <- subscript pair_vals 0 ;;
      if py_ne first_value v0 then Ok true else
      v1 <- subscript pair_vals 1 ;;
      Ok (py_ne second_value v1)
  end.

(** One iteration of the loop, for the index [ii], on the variable [picks]. *)
Definition check_pair (info : Info) (pair_vals : list pyval)
  (throw_errors : bool) (ii : nat) (picks : list nat) : result (list nat) :=
  c1 <- subscript (chs info) ii ;;
  c2 <- subscript (chs info) (ii + 1) ;;
  p <- parse_pair throw_errors (ch_name c1) (ch_name c2) picks ;;
  bad <- pair_mismatch p pair_vals ;;
  if bad : bool then
    subscript pair_vals 0 ;;;
    subscript pair_vals 1 ;;;
    _throw_or_return_empty NotOrdered throw_errors
  else Ok (picks_after p).

Definition wave_types : list ch_type := [fnirs_cw_amplitude; fnirs_od].
Definition chroma_types : list ch_type := [hbo; hbr].

(** The function up to its loop: the value of [picks] when the loop is done. *)
Definition ordering_checks (info : Info) (pair_vals : list pyval)
  (throw_errors : bool) : result (list nat) :=
  let picks_wave := _picks_to_idx_types info wave_types in
  let picks_chroma := _picks_to_idx_types info chroma_types in
  let picks := picks_chroma ++ picks_wave in
  picks <- (if (0 <? length picks_wave) && (0 <? length picks_chroma)
            then _throw_or_return_empty MixedTypes throw_errors
            else Ok picks) ;;
  picks <- (if negb (length picks mod 2 =? 0)
            then _throw_or_return_empty OddCount throw_errors
            else Ok picks) ;;
  all_freqs <- map_result
                 (fun ii => ch <- subscript (chs info) ii ;; subscript (loc ch) 9)
                 picks_wave ;;
  picks <- (if existsb is_nan all_freqs
            then _throw_or_return_empty MissingWavelength throw_errors
            else Ok picks) ;;
  for_each (evens picks) (check_pair info pair_vals throw_errors) picks.

Definition _check_channels_ordered (info : Info) (pair_vals : list pyval)
  (throw_errors : bool) : result (list nat) :=
  picks <- ordering_checks info pair_vals throw_errors ;;
  _fnirs_check_bads info ;;;
  Ok picks.

(** ** Properties of records, as the statements below use them *)

Definition fnirs_picks (info : Info) : list nat :=
  _picks_to_idx_types info fnirs_types.

(** The channel pair that starts at index [ii]: [info.ch_names[ii:ii + 2]]. *)
Definition pair_names (info : Info) (ii : nat) : list string :=
  slice ii (ii + 2) (ch_names info).

(** The starts of the pairs: every second fNIRS index. *)
Definition pair_starts (info : Info) : list nat := evens (fnirs_picks info).

Definition mem (x : string) (l : list string) : bool :=
  existsb (String.eqb x) l.

(** How many members of a pair are in the bads list. *)
Definition bad_members (bads want : list string) : nat :=
  length (filter (fun n => mem n bads) want).

(** Exactly one of the labels of a pair is marked bad. *)
Definition exactly_one_bad (bads want : list string) : Prop :=
  exists a, In a want /\ In a bads /\
            forall b, In b want -> In b bads -> b = a.

(** Two names that follow the convention for the expected values [v0] and
    [v1]: the same source and detector, and either two wavelengths or two
    haemoglobin labels that are equal to the expected values. *)
Definition good_pair (v0 v1 : pyval) (name1 name2 : string) : Prop :=
  exists src det g1 g2,
    (_S_D_F_RE name1 = Some (src, det, g1) /\
     _S_D_F_RE name2 = Some (src, det, g2) /\
     py_ne (PyFloat (py_float g1)) v0 = false /\
     py_ne (PyFloat (py_float g2)) v1 = false)
    \/
    (_S_D_H_RE name1 = Some (src, det, g1) /\
     _S_D_H_RE name2 = Some (src, det, g2) /\
     is_hb g1 = true /\ is_hb g2 = true /\
     py_ne (PyStr g1) v0 = false /\
     py_ne (PyStr g2) v1 = false).

(** Indices that come in pairs [i, i + 1] of adjacent channels. *)
Inductive adjacent_pairs : list nat -> Prop :=
| adjacent_nil : adjacent_pairs []
| adjacent_cons i rest :
    adjacent_pairs rest -> adjacent_pairs (i :: S i :: rest).

(** The indices come in pairs of adjacent channels, each pair well named and
    with bad labels on both of its members or on none. *)
Inductive paired_from (info : Info) (v0 v1 : pyval) : list nat -> Prop :=
| paired_nil : paired_from info v0 v1 []
| paired_cons i c1 c2 rest :
    nth_error (chs info) i = Some c1 ->
    nth_error (chs info) (S i) = Some c2 ->
    good_pair v0 v1 (ch_name c1) (ch_name c2) ->
    ~ exactly_one_bad (bads info) [ch_name c1; ch_name c2] ->
    paired_from info v0 v1 rest ->
    paired_from info v0 v1 (i :: S i :: rest).

Definition one_family (info : Info) : Prop :=
  (forall c, In c (chs info) -> has_type wave_types c = false) \/
  (forall c, In c (chs info) -> has_type chroma_types c = false).

Definition has_wavelength (c : channel) : Prop :=
  exists f, nth_error (loc c) 9 = Some f /\ is_nan f = false.

Record correctly_paired (info : Info) (pair_vals : list pyval) : Prop := {
  cp_family : one_family info;
  cp_pairs : exists v0 v1 more,
      pair_vals = v0 :: v1 :: more /\
      paired_from info v0 v1 (fnirs_picks info);
  cp_wavelength : forall c,
      In c (chs info) -> has_type wave_types c = true -> has_wavelength c
}.

(** The test of one pair in [_fnirs_check_bads]. *)
Definition inconsistent (info : Info) (ii : nat) : bool :=
  length (intersection (bads info) (pair_names info ii)) =? 1.

(** A pair with at least one member in the bads list. *)
Definition hit (bads want : list string) : bool :=
  existsb (fun n => mem n bads) want.

(** The names of both members of every pair with a bad member. *)
Definition spread_names (info : Info) : list string :=
  flat_map
    (fun ii => if hit (bads info) (pair_names info ii)
               then pair_names info ii else [])
    (pair_starts info).

(** The entry [loc[9]] of the channel at an index. *)
Definition wavelength_of (info : Info) (ii : nat) : result float :=
  ch <- subscript (chs info) ii ;; subscript (loc ch) 9.

(** Every pair that the loop visits has names of the common form. *)
Definition parseable (info : Info) : Prop :=
  forall ii c1 c2,
    In ii (pair_starts info) ->
    nth_error (chs info) ii = Some c1 ->
    nth_error (chs info) (S ii) = Some c2 ->
    _S_D_H_RE (ch_name c1) <> None /\ _S_D_H_RE (ch_name c2) <> None.

(** The record passes the three checks before the loop, so that the loop
    visits its pairs; otherwise [picks] is empty when the loop starts. *)
Definition reaches_loop (info : Info) : Prop :=
  one_family info /\
  length (fnirs_picks info) mod 2 = 0 /\
  forall c f, In c (chs info) -> has_type wave_types c = true ->
              nth_error (loc c) 9 = Some f -> is_nan f = false.

(** A record breaks a rule of naming, ordering or type mixing. *)
Inductive violation (info : Info) (v0 v1 : pyval) : Prop :=
| mixed_families c c' :
    In c (chs info) -> In c' (chs info) ->
    has_type wave_types c = true -> has_type chroma_types c' = true ->
    violation info v0 v1
| odd_count :
    Nat.odd (length (fnirs_picks info)) = true -> violation info v0 v1
| missing_wavelength c f :
    In c (chs info) -> has_type wave_types c = true ->
    nth_error (loc c) 9 = Some f -> is_nan f = true ->
    violation info v0 v1
| bad_pair ii c1 c2 :
    In ii (pair_starts info) ->
    nth_error (chs info) ii = Some c1 ->
    nth_error (chs info) (S ii) = Some c2 ->
    ~ good_pair v0 v1 (ch_name c1) (ch_name c2) ->
    violation info v0 v1.

(** ** Coordinates and distances *)

Local Open Scope float_scope.

(** The three entries of a location vector from the position [i] on, as a
    point. *)
Definition point (l : list float) (i : nat) : option (float * float * float) :=
  match nth_error l i, nth_error l (i + 1), nth_error l (i + 2) with
  | Some x, Some y, Some z => Some (x, y, z)
  | _, _, _ => None
  end.

(** The source coordinates, location entries 3..5, and the detector
    coordinates, location entries 6..8. *)
Definition source_xyz (ch : channel) : option (float * float * float) :=
  point (loc ch) 3.

Definition detector_xyz (ch : channel) : option (float * float * float) :=
  point (loc ch) 6.

Definition sq_diff (a b : float) : float := (a - b) * (a - b).

(** The Euclidean distance of two points in binary64 arithmetic: the square
    root of the sum of the squares of the three differences, each square
    rounded before it is added, or, on a platform that fuses, multiplied and
    added to the squares before it in one operation. *)
Definition euclidean (fused : bool) (p q : float * float * float) : float :=
  let '(x1, y1, z1) := p in
  let '(x2, y2, z2) := q in
  if fused
  then sqrt (fma (z1 - z2) (z1 - z2)
               (fma (y1 - y2) (y1 - y2) (sq_diff x1 x2)))
  else sqrt (sq_diff x1 x2 + sq_diff y1 y2 + sq_diff z1 z2).

(** The channels a selection stands for: all of them when there is none. *)
Definition selection (info : Info) (picks : option (list nat)) : list nat :=
  match picks with
  | Some l => l
  | None => seq 0 (length (chs info))
  end.

(** The channel with its source and detector coordinates exchanged. *)
Definition swap_optodes (ch : channel) : channel :=
  {| ch_name := ch_name ch;
     kind := kind ch;
     loc := firstn 3 (loc ch) ++ slice 6 9 (loc ch) ++ slice 3 6 (loc ch)
            ++ skipn 9 (loc ch) |}.

(** Two points with equal coordinates, and a point of finite coordinates. *)
Definition coincide (p q : float * float * float) : bool :=
  let '(x1, y1, z1) := p in
  let '(x2, y2, z2) := q in
  (x1 =? x2) && (y1 =? y2) && (z1 =? z2).

Definition finite_point (p : float * float * float) : bool :=
  let '(x, y, z) := p in is_finite x && is_finite y && is_finite z.

(** Two points so close that the square of every coordinate difference
    rounds to zero. *)
Definition squares_vanish (p q : float * float * float) : Prop :=
  let '(x1, y1, z1) := p in
  let '(x2, y2, z2) := q in
  sq_diff x1 x2 = 0 /\ sq_diff y1 y2 = 0 /\ sq_diff z1 z2 = 0.

Local Close Scope float_scope.

(** The values a square, and a sum of squares, can take. *)
Definition sq_like (x : spec_float) : Prop :=
  match x with
  | S754_zero s | S754_infinity s | S754_finite s _ _ => s = false
  | S754_nan => True
  end.

(** ** Example records *)

Local Open Scope float_scope.

Definition loc_of (src det : float * float * float) (wavelength : float)
  : list float :=
  let '(sx, sy, sz) := src in
  let '(dx, dy, dz) := det in
  [0; 0; 0; sx; sy; sz; dx; dy; dz; wavelength; 0; 0].

Definition optode_a : float * float * float := (0, 0, 0).
Definition optode_b : float * float * float := (0x1p-5, 0, 0).

Definition mk_channel (name : string) (k : ch_type) (wavelength : float) : channel :=
  {| ch_name := name; kind := k; loc := loc_of optode_a optode_b wavelength |}.

Definition amp_760 := mk_channel "S1_D1 760" fnirs_cw_amplitude 760.
Definition amp_850 := mk_channel "S1_D1 850" fnirs_cw_amplitude 850.
Definition hbo_1 := mk_channel "S1_D1 hbo" hbo nan.
Definition hbr_1 := mk_channel "S1_D1 hbr" hbr nan.
Definition stim := mk_channel "STI 014" other nan.

(** A source at the place of its detector. *)
Definition ch_same : channel :=
  {| ch_name := "S1_D1 760"; kind := fnirs_cw_amplitude;
     loc := loc_of optode_b optode_b 760 |}.

(** A source at 2^-600 m from its detector. *)
Definition ch_near : channel :=
  {| ch_name := "S1_D1 760"; kind := fnirs_cw_amplitude;
     loc := loc_of (0x1p-600, 0, 0) (0, 0, 0) 760 |}.

Definition wavelengths : list pyval := [PyFloat 760; PyFloat 850].
Definition chromophores : list pyval := [PyStr "hbo"; PyStr "hbr"].

Local Close Scope float_scope.

(** A well-formed amplitude recording and a haemoglobin recording. *)
Definition info_amp : Info := {| chs := [amp_760; amp_850]; bads := [] |}.
Definition info_hb : Info :=
  {| chs := [hbo_1; hbr_1]; bads := ["S1_D1 hbo"; "S1_D1 hbr"]%string |}.

(** Amplitude and haemoglobin channels in one record. *)
Definition info_mixed : Info :=
  {| chs := [amp_760; amp_850; hbo_1; hbr_1]; bads := [] |}.

(** A pair of fNIRS channels followed by a stimulus channel. *)
Definition info_stim : Info := {| chs := [amp_760; amp_850; stim]; bads := [] |}.

(** The same with the first channel and the stimulus channel marked bad. *)
Definition info_stim_bad : Info :=
  {| chs := [amp_760; amp_850; stim];
     bads := ["S1_D1 760"; "STI 014"]%string |}.

(** A single fNIRS channel, marked bad. *)
Definition info_single : Info :=
  {| chs := [amp_760]; bads := ["S1_D1 760"%string] |}.

(** A pair in the wrong order with one member marked bad. *)
Definition info_swapped_bad : Info :=
  {| chs := [amp_850; amp_760]; bads := ["S1_D1 850"%string] |}.

(** A pair in the wrong order. *)
Definition info_swapped : Info := {| chs := [amp_850; amp_760]; bads := [] |}.

(** Three fNIRS channels and a stimulus channel. *)
Definition info_odd : Info :=
  {| chs := [amp_760; amp_850;
             mk_channel "S2_D1 760" fnirs_cw_amplitude PrimFloat.one; stim];
     bads := [] |}.

(** Names that follow no convention. *)
Definition info_unnamed : Info :=
  {| chs := [mk_channel "Fp1" fnirs_od PrimFloat.one;
             mk_channel "Fp2" fnirs_od PrimFloat.one];
     bads := [] |}.

(** What [_check_channels_ordered] requires of a record for the expected
    values [v0] and [v1]: channels of one family, an even number of them, a
    wavelength for every wavelength channel, and at every second fNIRS index
    a well-named pair of channels whose bad labels are consistent. *)
Record well_formed (info : Info) (v0 v1 : pyval) : Prop := {
  wf_family : one_family info;
  wf_even : length (fnirs_picks info) mod 2 = 0;
  wf_wavelength : forall c,
      In c (chs info) -> has_type wave_types c = true -> has_wavelength c;
  wf_pairs : forall ii,
      In ii (pair_starts info) ->
      exists c1 c2,
        nth_error (chs info) ii = Some c1 /\
        nth_error (chs info) (S ii) = Some c2 /\
        good_pair v0 v1 (ch_name c1) (ch_name c2);
  wf_bads : forall ii,
      In ii (pair_starts info) ->
      ~ exactly_one_bad (bads info) (pair_names info ii)
}.

(** ** Names of the standard form *)

(** Every character of a string is of a class, and a string that does not
    go on with a character of the class. *)
Fixpoint all_of (p : ascii -> bool) (s : string) : bool :=
  match s with
  | EmptyString => true
  | String c s' => p c && all_of p s'
  end.

Definition stops (p : ascii -> bool) (s : string) : bool :=
  match s with
  | EmptyString => true
  | String c _ => negb (p c)
  end.

(** A number in a name: digits, at least one. *)
Definition number (s : string) : Prop := s <> EmptyString /\ all_of is_digit s = true.

(** The name [S<src>_D<det> <label>] followed by [rest]. *)
Definition standard_name (src det label rest : string) : string :=
  ("S" ++ src ++ "_D" ++ det ++ " " ++ label ++ rest)%string.

(** * Proofs *)

Unset Implicit Arguments.

(** ** Lists of picks *)

Lemma picks_from_nil i keep l :
  picks_from i keep l = [] <-> forall c, In c l -> keep c = false.
Proof.
  revert i; induction l as [|c l IH]; intros i; simpl.
  - split; [intros _ c []|reflexivity].
  - destruct (keep c) eqn:K.
    + split; [discriminate|].
      intros H. rewrite (H c) in K by now left. discriminate.
    + rewrite IH. split.
      * intros H c' [<-|Hc]; auto.
      * intros H c' Hc. apply H. now right.
Qed.

Lemma picks_from_ext i keep keep' l :
  (forall c, In c l -> keep c = keep' c) ->
  picks_from i keep l = picks_from i keep' l.
Proof.
  revert i; induction l as [|c l IH]; intros i H; simpl; [reflexivity|].
  rewrite (H c) by now left.
  rewrite (IH (S i)) by (intros; apply H; now right).
  reflexivity.
Qed.

Lemma has_type_fnirs c :
  has_type fnirs_types c = has_type chroma_types c || has_type wave_types c.
Proof. unfold has_type; destruct (kind c); reflexivity. Qed.

Lemma has_type_disjoint c :
  has_type chroma_types c = true -> has_type wave_types c = false.
Proof. unfold has_type; destruct (kind c); simpl; congruence. Qed.

Lemma picks_from_length_split i l :
  length (picks_from i (has_type fnirs_types) l)
  = length (picks_from i (has_type chroma_types) l)
    + length (picks_from i (has_type wave_types) l).
Proof.
  revert i; induction l as [|c l IH]; intros i; cbn [picks_from];
    [reflexivity|].
  rewrite has_type_fnirs.
  destruct (has_type chroma_types c) eqn:C.
  - rewrite (has_type_disjoint c C). cbn [orb length]. now rewrite IH.
  - destruct (has_type wave_types c); cbn [orb length]; rewrite IH; lia.
Qed.

(** With channels of one family only, the two picks put together are the
    fNIRS picks. *)
Lemma picks_one_family info :
  one_family info ->
  _picks_to_idx_types info chroma_types ++ _picks_to_idx_types info wave_types
  = fnirs_picks info.
Proof.
  unfold fnirs_picks, _picks_to_idx_types. intros [W|C].
  - rewrite (proj2 (picks_from_nil 0 (has_type wave_types) (chs info)) W).
    rewrite app_nil_r. apply picks_from_ext.
    intros c Hc. rewrite has_type_fnirs, (W c Hc). now rewrite orb_false_r.
  - rewrite (proj2 (picks_from_nil 0 (has_type chroma_types) (chs info)) C).
    simpl. apply picks_from_ext.
    intros c Hc. now rewrite has_type_fnirs, (C c Hc).
Qed.

Lemma picks_from_In i keep l ii :
  In ii (picks_from i keep l) <->
  exists c, i <= ii /\ nth_error l (ii - i) = Some c /\ keep c = true.
Proof.
  revert i; induction l as [|c l IH]; intros i; simpl.
  - split; [intros []|]. intros (c & _ & H & _). now destruct (ii - i).
  - assert (R : In ii (picks_from (S i) keep l) <->
                exists c', S i <= ii /\ nth_error l (ii - S i) = Some c' /\
                           keep c' = true) by apply IH.
    assert (T : forall c', (S i <= ii /\ nth_error l (ii - S i) = Some c' /\
                            keep c' = true) <->
                i <= ii /\ ii <> i /\
                nth_error (c :: l) (ii - i) = Some c' /\ keep c' = true).
    { intros c'. split.
      - intros (L & N & K). repeat split; try lia; auto.
        replace (ii - i) with (S (ii - S i)) by lia. exact N.
      - intros (L & D & N & K). repeat split; try lia; auto.
        replace (ii - i) with (S (ii - S i)) in N by lia. exact N. }
    destruct (keep c) eqn:K; simpl; rewrite R; split.
    + intros [<-|(c' & H)].
      * exists c. rewrite Nat.sub_diag. auto.
      * exists c'. apply T in H. tauto.
    + intros (c' & L & N & K').
      destruct (Nat.eq_dec ii i) as [->|D]; [now left|right].
      exists c'. apply T. tauto.
    + intros (c' & H). exists c'. apply T in H. tauto.
    + intros (c' & L & N & K').
      destruct (Nat.eq_dec ii i) as [->|D].
      * rewrite Nat.sub_diag in N. simpl in N. congruence.
      * exists c'. apply T. tauto.
Qed.

Lemma picks_In info types ii :
  In ii (_picks_to_idx_types info types) <->
  exists c, nth_error (chs info) ii = Some c /\ has_type types c = true.
Proof.
  unfold _picks_to_idx_types. rewrite picks_from_In.
  rewrite Nat.sub_0_r. split.
  - intros (c & _ & H). now exists c.
  - intros (c & H). exists c. split; [lia|exact H].
Qed.

Lemma picks_nonempty info types c :
  In c (chs info) -> has_type types c = true ->
  (0 <? length (_picks_to_idx_types info types)) = true.
Proof.
  intros Hc K. unfold _picks_to_idx_types.
  destruct (picks_from 0 (has_type types) (chs info)) eqn:E; [|reflexivity].
  rewrite picks_from_nil in E. rewrite (E c Hc) in K. discriminate.
Qed.

(** ** Mixed families and odd counts *)

Lemma wave_kind c :
  kind c = fnirs_cw_amplitude \/ kind c = fnirs_od ->
  has_type wave_types c = true.
Proof. unfold has_type. now intros [-> | ->]. Qed.

Lemma chroma_kind c :
  kind c = hbo \/ kind c = hbr -> has_type chroma_types c = true.
Proof. unfold has_type. now intros [-> | ->]. Qed.

(** C5: a record with a wavelength-family channel (amplitude or optical
    density) and a chromophore-family channel (hbo or hbr) makes
    [_check_channels_ordered], with [throw_errors] at its default [True],
    raise the error about combined data. *)
Theorem mixed_families_raise (info : Info) (pair_vals : list pyval) :
  (exists c, In c (chs info) /\
             (kind c = fnirs_cw_amplitude \/ kind c = fnirs_od)) ->
  (exists c, In c (chs info) /\ (kind c = hbo \/ kind c = hbr)) ->
  _check_channels_ordered info pair_vals true = Raise (ValueError MixedTypes).
Proof.
  intros (w & Hw & Kw) (h & Hh & Kh).
  unfold _check_channels_ordered, ordering_checks.
  rewrite (picks_nonempty info wave_types w Hw (wave_kind w Kw)).
  rewrite (picks_nonempty info chroma_types h Hh (chroma_kind h Kh)).
  reflexivity.
Qed.

Lemma mixed_families_raise_witness :
  _check_channels_ordered info_mixed wavelengths true
  = Raise (ValueError MixedTypes).
Proof.
  apply (mixed_families_raise info_mixed wavelengths).
  - exists amp_760. split; [simpl; auto | left; reflexivity].
  - exists hbo_1. split; [simpl; auto | left; reflexivity].
Defined.

(** The claim about odd counts, as it is stated of the total number of
    channels, is false: two well-named fNIRS channels and a stimulus channel
    are three channels, and the check returns the two fNIRS picks. *)
Lemma odd_total_count_accepted :
  Nat.odd (length (chs info_stim)) = true /\
  ~ raises (_check_channels_ordered info_stim wavelengths true).
Proof.
  split; [reflexivity|].
  assert (E : _check_channels_ordered info_stim wavelengths true = Ok [0; 1])
    by (vm_compute; reflexivity).
  rewrite E. intros (e & H). discriminate.
Qed.

(** C4, amended: a record with an odd number of fNIRS channels makes
    [_check_channels_ordered], with [throw_errors] at its default [True],
    raise an error: the one about combined data when both families are
    present, the one about the even number otherwise. *)
Theorem odd_fnirs_count_raises (info : Info) (pair_vals : list pyval) :
  Nat.odd (length (fnirs_picks info)) = true ->
  _check_channels_ordered info pair_vals true = Raise (ValueError MixedTypes)
  \/ _check_channels_ordered info pair_vals true = Raise (ValueError OddCount).
Proof.
  intros Hodd. unfold _check_channels_ordered, ordering_checks.
  destruct ((0 <? length (_picks_to_idx_types info wave_types))
            && (0 <? length (_picks_to_idx_types info chroma_types))) eqn:M.
  - left. reflexivity.
  - right. cbn [bind].
    assert (P : length (_picks_to_idx_types info chroma_types
                        ++ _picks_to_idx_types info wave_types) mod 2 = 1).
    { rewrite length_app. unfold fnirs_picks, _picks_to_idx_types in *.
      rewrite picks_from_length_split in Hodd.
      rewrite <- Nat.negb_even, Bool.negb_true_iff in Hodd.
      rewrite <- Nat.bit0_mod, Nat.bit0_odd.
      rewrite <- Nat.negb_even, Hodd. reflexivity. }
    rewrite P. reflexivity.
Qed.

Lemma odd_fnirs_count_raises_witness :
  _check_channels_ordered info_single wavelengths true
  = Raise (ValueError MixedTypes)
  \/ _check_channels_ordered info_single wavelengths true
     = Raise (ValueError OddCount).
Proof. apply (odd_fnirs_count_raises info_single wavelengths). reflexivity. Defined.

(** ** Slices and every second element *)

Lemma list_pair_ind {A} (P : list A -> Prop) :
  P [] -> (forall x, P [x]) -> (forall x y l, P l -> P (x :: y :: l)) ->
  forall l, P l.
Proof.
  intros H0 H1 H2 l.
  assert (H : P l /\ forall x, P (x :: l)).
  { induction l as [|y l [IH IH']]; split; auto. }
  apply H.
Qed.

Lemma In_evens {A} (l : list A) a : In a (evens l) -> In a l.
Proof.
  induction l as [|x|x y l IH] using list_pair_ind; simpl; auto.
  intros [->|H]; auto.
Qed.

Lemma pair_names_eq info ii :
  pair_names info ii =
  match nth_error (ch_names info) ii with
  | None => []
  | Some a =>
      match nth_error (ch_names info) (S ii) with
      | None => [a]
      | Some b => [a; b]
      end
  end.
Proof.
  unfold pair_names, slice.
  replace (ii + 2 - ii) with 2 by lia.
  rewrite <- (Nat.add_0_r ii) at 2. rewrite <- nth_error_skipn.
  replace (S ii) with (ii + 1) by lia. rewrite <- nth_error_skipn.
  destruct (skipn ii (ch_names info)) as [|a [|b m]]; reflexivity.
Qed.

Lemma pair_names_In info ii x :
  In x (pair_names info ii) <->
  nth_error (ch_names info) ii = Some x \/
  nth_error (ch_names info) (S ii) = Some x.
Proof.
  rewrite pair_names_eq.
  destruct (nth_error (ch_names info) ii) as [a|] eqn:A.
  - destruct (nth_error (ch_names info) (S ii)) as [b|] eqn:B; simpl;
      intuition congruence.
  - assert (B : nth_error (ch_names info) (S ii) = None).
    { apply nth_error_None. apply nth_error_None in A. lia. }
    rewrite B. simpl. intuition congruence.
Qed.

Lemma picks_from_bounds i keep l x :
  In x (picks_from i keep l) -> i <= x.
Proof. rewrite picks_from_In. now intros (c & H & _). Qed.

Lemma picks_from_sorted i keep l :
  StronglySorted lt (picks_from i keep l).
Proof.
  revert i; induction l as [|c l IH]; intros i; simpl; [constructor|].
  destruct (keep c); [|apply IH].
  constructor; [apply IH|].
  apply Forall_forall. intros x Hx. apply picks_from_bounds in Hx. lia.
Qed.

Lemma evens_gap l :
  StronglySorted lt l ->
  forall a b, In a (evens l) -> In b (evens l) ->
              a = b \/ a + 2 <= b \/ b + 2 <= a.
Proof.
  induction l as [|x|x y l IH] using list_pair_ind; intros HS a b; simpl.
  - intros [].
  - intros [<-|[]] [<-|[]]. now left.
  - apply StronglySorted_inv in HS as [HS Hx].
    apply StronglySorted_inv in HS as [HS Hy].
    pose proof (Forall_inv Hx) as Hxy.
    rewrite Forall_forall in Hy.
    intros [<-|Ha] [<-|Hb].
    + now left.
    + apply In_evens in Hb. specialize (Hy b Hb). right. left. lia.
    + apply In_evens in Ha. specialize (Hy a Ha). right. right. lia.
    + now apply IH.
Qed.

(** ** Bad labels of a pair *)

Lemma mem_In x l : mem x l = true <-> In x l.
Proof.
  unfold mem. rewrite existsb_exists. split.
  - intros (y & Hy & E). apply String.eqb_eq in E. now subst.
  - intros H. exists x. split; [exact H|apply String.eqb_refl].
Qed.

Lemma intersection_In bads want x :
  In x (intersection bads want) <-> In x bads /\ In x want.
Proof.
  unfold intersection. rewrite nodup_In, filter_In.
  change (existsb (String.eqb x) want) with (mem x want).
  now rewrite mem_In.
Qed.

Lemma intersection_NoDup bads want : NoDup (intersection bads want).
Proof. apply NoDup_nodup. Qed.

(** The set has one element exactly when one label of the pair is bad. *)
Lemma intersection_one bads want :
  length (intersection bads want) = 1 <-> exactly_one_bad bads want.
Proof.
  split.
  - intros L. destruct (intersection bads want) as [|a [|]] eqn:E;
      try discriminate.
    assert (Ha : In a (intersection bads want)) by (rewrite E; now left).
    apply intersection_In in Ha as [Hb Hw].
    exists a. repeat split; auto.
    intros b Hbw Hbb.
    assert (Hb' : In b (intersection bads want))
      by (apply intersection_In; auto).
    rewrite E in Hb'. destruct Hb' as [<-|[]]. reflexivity.
  - intros (a & Hw & Hb & U).
    assert (P : Permutation (intersection bads want) [a]).
    { apply NoDup_Permutation.
      - apply intersection_NoDup.
      - constructor; [intros []|constructor].
      - intros x. rewrite intersection_In. split.
        + intros [Hx Hx']. left. symmetry. now apply U.
        + intros [<-|[]]. auto. }
    apply Permutation_length in P. exact P.
Qed.

(** With two different names in a pair the set counts the bad members. *)
Lemma intersection_members bads want :
  NoDup want -> length (intersection bads want) = bad_members bads want.
Proof.
  intros N. unfold bad_members. apply Permutation_length.
  apply NoDup_Permutation.
  - apply intersection_NoDup.
  - now apply NoDup_filter.
  - intros x. rewrite intersection_In, filter_In, mem_In. tauto.
Qed.

Lemma one_bad_member bads want :
  bad_members bads want = 1 -> exactly_one_bad bads want.
Proof.
  unfold bad_members. intros L.
  destruct (filter (fun n => mem n bads) want) as [|a [|]] eqn:E;
    try discriminate.
  assert (Ha : In a (filter (fun n => mem n bads) want))
    by (rewrite E; now left).
  apply filter_In in Ha as [Hw Hb]. apply mem_In in Hb.
  exists a. repeat split; auto.
  intros b Hbw Hbb.
  assert (Hb' : In b (filter (fun n => mem n bads) want))
    by (apply filter_In; split; [|apply mem_In]; auto).
  rewrite E in Hb'. destruct Hb' as [<-|[]]. reflexivity.
Qed.

(** ** [_fnirs_check_bads] *)

Lemma for_each_test {A} (p : A -> bool) (e : exn) (l : list A) :
  for_each l (fun x (_ : unit) => if p x then Raise e else Ok tt) tt
  = if existsb p l then Raise e else Ok tt.
Proof.
  induction l as [|x l IH]; simpl; [reflexivity|].
  destruct (p x); simpl; [reflexivity|exact IH].
Qed.

Lemma check_bads_eq info :
  _fnirs_check_bads info
  = if existsb (inconsistent info) (pair_starts info)
    then Raise RuntimeError else Ok tt.
Proof.
  unfold _fnirs_check_bads.
  exact (for_each_test (inconsistent info) RuntimeError (pair_starts info)).
Qed.

Lemma check_bads_raises info :
  (exists ii, In ii (pair_starts info) /\
              exactly_one_bad (bads info) (pair_names info ii)) ->
  _fnirs_check_bads info = Raise RuntimeError.
Proof.
  intros (ii & Hii & H). rewrite check_bads_eq.
  assert (E : existsb (inconsistent info) (pair_starts info) = true).
  { apply existsb_exists. exists ii. split; [exact Hii|].
    unfold inconsistent. apply Nat.eqb_eq. now apply intersection_one. }
  now rewrite E.
Qed.

Lemma check_bads_passes info :
  (forall ii, In ii (pair_starts info) ->
              ~ exactly_one_bad (bads info) (pair_names info ii)) ->
  _fnirs_check_bads info = Ok tt.
Proof.
  intros H. rewrite check_bads_eq.
  destruct (existsb (inconsistent info) (pair_starts info)) eqn:E;
    [|reflexivity].
  apply existsb_exists in E as (ii & Hii & I).
  unfold inconsistent in I. apply Nat.eqb_eq, intersection_one in I.
  now elim (H ii Hii).
Qed.

(** [_check_channels_ordered] ends with the check of the bad labels. *)
Lemma check_bads_propagates info pair_vals throw_errors e :
  _fnirs_check_bads info = Raise e ->
  raises (_check_channels_ordered info pair_vals throw_errors) /\
  forall picks, ordering_checks info pair_vals throw_errors = Ok picks ->
                _check_channels_ordered info pair_vals throw_errors = Raise e.
Proof.
  intros H. unfold _check_channels_ordered, raises.
  destruct (ordering_checks info pair_vals throw_errors) as [p|e'];
    simpl; rewrite ?H; simpl; split; eauto; discriminate.
Qed.

(** The names of a pair of a record of the data model are different. *)
Lemma pair_names_NoDup info ii :
  NoDup (ch_names info) -> NoDup (pair_names info ii).
Proof.
  intros N. unfold pair_names, slice.
  rewrite <- (firstn_skipn ii (ch_names info)) in N.
  apply NoDup_app_remove_l in N.
  rewrite <- (firstn_skipn (ii + 2 - ii) (skipn ii (ch_names info))) in N.
  now apply NoDup_app_remove_r in N.
Qed.

(** With [throw_errors=True] the error of [_check_channels_ordered] on a
    record with one bad member in a pair need not be the error of the bad
    labels: for a pair in the wrong order, of which one member is marked
    bad, the check of the order comes first and raises its [ValueError]. *)
Lemma ordering_error_comes_first :
  NoDup (ch_names info_swapped_bad) /\
  In 0 (pair_starts info_swapped_bad) /\
  bad_members (bads info_swapped_bad) (pair_names info_swapped_bad 0) = 1 /\
  _fnirs_check_bads info_swapped_bad = Raise RuntimeError /\
  _check_channels_ordered info_swapped_bad wavelengths true
  = Raise (ValueError NotOrdered).
Proof.
  split; [repeat constructor; simpl; intuition discriminate|].
  split; [now left|]. repeat split; vm_compute; reflexivity.
Qed.

(** C3, amended: when some pair of channels [ii, ii + 1], [ii] every second
    fNIRS index, has exactly one member in the bads list,
    [_fnirs_check_bads] raises, and [_check_channels_ordered] raises an
    error whatever [throw_errors] is: the error of the bad labels whenever
    its checks of the order raise none, theirs otherwise.  When every pair of
    a record of the data model, whose names are all different, has both or
    neither member in bads, [_fnirs_check_bads] raises nothing. *)
Theorem bad_labels_checked (info : Info) :
  ((exists ii, In ii (pair_starts info) /\
               bad_members (bads info) (pair_names info ii) = 1) ->
   _fnirs_check_bads info = Raise RuntimeError /\
   forall pair_vals throw_errors,
     raises (_check_channels_ordered info pair_vals throw_errors) /\
     forall picks,
       ordering_checks info pair_vals throw_errors = Ok picks ->
       _check_channels_ordered info pair_vals throw_errors
       = Raise RuntimeError)
  /\
  (NoDup (ch_names info) ->
   (forall ii, In ii (pair_starts info) ->
               bad_members (bads info) (pair_names info ii) = 2 \/
               bad_members (bads info) (pair_names info ii) = 0) ->
   _fnirs_check_bads info = Ok tt).
Proof.
  split.
  - intros (ii & Hii & M).
    assert (R : _fnirs_check_bads info = Raise RuntimeError).
    { apply check_bads_raises. exists ii. split; [exact Hii|].
      now apply one_bad_member. }
    split; [exact R|]. intros pair_vals throw_errors.
    now apply check_bads_propagates.
  - intros N H. apply check_bads_passes. intros ii Hii E.
    apply intersection_one in E.
    rewrite (intersection_members _ _ (pair_names_NoDup info ii N)) in E.
    destruct (H ii Hii); lia.
Qed.

Lemma bad_labels_checked_witness :
  (_fnirs_check_bads info_swapped_bad = Raise RuntimeError /\
   forall pair_vals throw_errors,
     raises (_check_channels_ordered info_swapped_bad pair_vals throw_errors) /\
     forall picks,
       ordering_checks info_swapped_bad pair_vals throw_errors = Ok picks ->
       _check_channels_ordered info_swapped_bad pair_vals throw_errors
       = Raise RuntimeError)
  /\ _fnirs_check_bads info_hb = Ok tt.
Proof.
  split.
  - apply (proj1 (bad_labels_checked info_swapped_bad)).
    exists 0. split; [now left|reflexivity].
  - apply (proj2 (bad_labels_checked info_hb)).
    + repeat constructor; simpl; intuition discriminate.
    + intros ii [<-|[]]. left. reflexivity.
Defined.

(** ** [_fnirs_spread_bads] *)

Lemma hit_iff bads want :
  hit bads want = true <-> exists x, In x want /\ In x bads.
Proof.
  unfold hit. rewrite existsb_exists.
  split; intros (x & Hx & H); exists x; split; auto; now apply mem_In.
Qed.

Lemma intersection_hit bads want :
  (0 <? length (intersection bads want)) = hit bads want.
Proof.
  destruct (hit bads want) eqn:H.
  - apply hit_iff in H as (x & Hw & Hb).
    assert (I : In x (intersection bads want)) by now apply intersection_In.
    destruct (intersection bads want); [destruct I|reflexivity].
  - destruct (intersection bads want) as [|x l] eqn:E; [reflexivity|].
    assert (I : In x (intersection bads want)) by (rewrite E; now left).
    apply intersection_In in I as [Hb Hw].
    assert (T : hit bads want = true) by (apply hit_iff; eauto).
    congruence.
Qed.

Lemma spread_fold info (l : list nat) (acc : list string) :
  fold_left
    (fun new_bads ii =>
       let bad_opto :=
         intersection (bads info) (slice ii (ii + 2) (ch_names info)) in
       if 0 <? length bad_opto
       then new_bads ++ slice ii (ii + 2) (ch_names info)
       else new_bads)
    l acc
  = acc ++ flat_map
             (fun ii => if hit (bads info) (pair_names info ii)
                        then pair_names info ii else [])
             l.
Proof.
  revert acc; induction l as [|ii l IH]; intros acc; simpl.
  - now rewrite app_nil_r.
  - rewrite IH. fold (pair_names info ii). rewrite intersection_hit.
    destruct (hit (bads info) (pair_names info ii)).
    + now rewrite app_assoc.
    + reflexivity.
Qed.

Lemma spread_bads_eq info : bads (_fnirs_spread_bads info) = spread_names info.
Proof. unfold _fnirs_spread_bads. simpl. now rewrite spread_fold. Qed.

Lemma spread_names_In info x :
  In x (spread_names info) <->
  exists ii, In ii (pair_starts info) /\ In x (pair_names info ii) /\
             hit (bads info) (pair_names info ii) = true.
Proof.
  unfold spread_names. rewrite in_flat_map. split.
  - intros (ii & Hii & H).
    destruct (hit (bads info) (pair_names info ii)) eqn:E; [|destruct H].
    exists ii. auto.
  - intros (ii & Hii & H & E). exists ii. rewrite E. auto.
Qed.

(** Pairs of a record with distinct names share no name. *)
Lemma pairs_disjoint info ii jj x :
  NoDup (ch_names info) ->
  In ii (pair_starts info) -> In jj (pair_starts info) ->
  In x (pair_names info ii) -> In x (pair_names info jj) -> ii = jj.
Proof.
  intros N Hii Hjj Hi Hj.
  assert (G : ii = jj \/ ii + 2 <= jj \/ jj + 2 <= ii).
  { apply (evens_gap _ (picks_from_sorted 0 (has_type fnirs_types) (chs info)));
      assumption. }
  rewrite NoDup_nth_error in N.
  assert (K : forall a b, nth_error (ch_names info) a = Some x ->
                          nth_error (ch_names info) b = Some x -> a = b).
  { intros a b A B. apply N; [|congruence].
    apply nth_error_Some. congruence. }
  apply pair_names_In in Hi, Hj.
  destruct Hi as [Hi|Hi], Hj as [Hj|Hj]; pose proof (K _ _ Hi Hj); lia.
Qed.

(** Spreading does not change which pairs have a bad member. *)
Lemma hit_spread info ii :
  NoDup (ch_names info) -> In ii (pair_starts info) ->
  hit (spread_names info) (pair_names info ii)
  = hit (bads info) (pair_names info ii).
Proof.
  intros N Hii.
  destruct (hit (bads info) (pair_names info ii)) eqn:E.
  - pose proof E as E'. apply hit_iff in E' as (x & Hw & _).
    apply hit_iff. exists x. split; [exact Hw|].
    apply spread_names_In. eauto.
  - destruct (hit (spread_names info) (pair_names info ii)) eqn:F;
      [|reflexivity].
    apply hit_iff in F as (x & Hw & Hs).
    apply spread_names_In in Hs as (jj & Hjj & Hx & Hj).
    rewrite (@pairs_disjoint info ii jj x N Hii Hjj Hw Hx) in E. congruence.
Qed.

Lemma flat_map_ext_in {A B} (f g : A -> list B) (l : list A) :
  (forall x, In x l -> f x = g x) -> flat_map f l = flat_map g l.
Proof.
  induction l as [|x l IH]; intros H; simpl; [reflexivity|].
  rewrite (H x) by now left.
  rewrite IH by (intros; apply H; now right).
  reflexivity.
Qed.

Lemma spread_twice info :
  NoDup (ch_names info) ->
  spread_names (_fnirs_spread_bads info) = spread_names info.
Proof.
  intros N. unfold spread_names at 1.
  change (pair_starts (_fnirs_spread_bads info)) with (pair_starts info).
  rewrite spread_bads_eq.
  apply flat_map_ext_in. intros ii Hii.
  change (pair_names (_fnirs_spread_bads info) ii) with (pair_names info ii).
  now rewrite hit_spread.
Qed.

(** C6: [_fnirs_spread_bads] is idempotent: on every record of the data
    model, whose channel names are all different, a second call leaves the
    record, and so its bads, as the first call made it. *)
Theorem spread_bads_idempotent (info : Info) :
  NoDup (ch_names info) ->
  _fnirs_spread_bads (_fnirs_spread_bads info) = _fnirs_spread_bads info.
Proof.
  intros N.
  assert (B : bads (_fnirs_spread_bads (_fnirs_spread_bads info))
              = bads (_fnirs_spread_bads info)).
  { rewrite (spread_bads_eq (_fnirs_spread_bads info)).
    rewrite (spread_bads_eq info). now apply spread_twice. }
  destruct (_fnirs_spread_bads (_fnirs_spread_bads info)) as [c b] eqn:E.
  assert (C : c = chs (_fnirs_spread_bads info)).
  { change (chs (_fnirs_spread_bads info))
      with (chs (_fnirs_spread_bads (_fnirs_spread_bads info))).
    now rewrite E. }
  simpl in B. subst b c. reflexivity.
Qed.

Lemma spread_bads_idempotent_witness :
  _fnirs_spread_bads (_fnirs_spread_bads info_swapped_bad)
  = _fnirs_spread_bads info_swapped_bad.
Proof.
  apply (spread_bads_idempotent info_swapped_bad).
  repeat constructor; simpl; intuition discriminate.
Defined.

Lemma adjacent_next l ii : adjacent_pairs l -> In ii (evens l) -> In (S ii) l.
Proof.
  induction 1 as [|i rest _ IH]; simpl; [intros []|].
  intros [<-|H]; auto.
Qed.

Lemma name_at info i c :
  nth_error (chs info) i = Some c ->
  nth_error (ch_names info) i = Some (ch_name c).
Proof. intros H. unfold ch_names. now rewrite nth_error_map, H. Qed.

Lemma distinct_names info a b x :
  NoDup (ch_names info) ->
  nth_error (ch_names info) a = Some x ->
  nth_error (ch_names info) b = Some x -> a = b.
Proof.
  intros N A B. rewrite NoDup_nth_error in N. apply N; [|congruence].
  apply nth_error_Some. congruence.
Qed.

(** In a record of adjacent pairs a pair is two fNIRS channels. *)
Lemma adjacent_pair_names info ii :
  adjacent_pairs (fnirs_picks info) -> In ii (pair_starts info) ->
  exists c1 c2,
    nth_error (chs info) ii = Some c1 /\
    nth_error (chs info) (S ii) = Some c2 /\
    has_type fnirs_types c1 = true /\ has_type fnirs_types c2 = true /\
    pair_names info ii = [ch_name c1; ch_name c2].
Proof.
  intros A Hii.
  pose proof (adjacent_next _ _ A Hii) as Hn.
  apply In_evens in Hii.
  apply picks_In in Hii as (c1 & H1 & K1).
  apply picks_In in Hn as (c2 & H2 & K2).
  exists c1, c2. repeat split; auto.
  now rewrite pair_names_eq, (name_at info ii _ H1), (name_at info (S ii) _ H2).
Qed.

(** The last part of the claim about the bads after spreading fails for a
    record of one fNIRS channel marked bad: it stays the only bad member of
    its pair. *)
Lemma spread_single_rejected :
  raises (_fnirs_check_bads (_fnirs_spread_bads info_single)).
Proof. exists RuntimeError. vm_compute. reflexivity. Qed.

(** C10, amended: after [_fnirs_spread_bads] the bads list is the names of
    both members of every pair [ii, ii + 1], [ii] every second fNIRS index,
    that had a member in the old bads list.  When the channel names are all
    different and the fNIRS channels come in pairs of adjacent channels, no
    channel that is not an fNIRS channel is in the new bads list, and
    [_fnirs_check_bads] raises nothing on the new record. *)
Theorem spread_bads_result (info : Info) :
  bads (_fnirs_spread_bads info) = spread_names info /\
  (NoDup (ch_names info) -> adjacent_pairs (fnirs_picks info) ->
   (forall i c, nth_error (chs info) i = Some c ->
                has_type fnirs_types c = false ->
                ~ In (ch_name c) (bads (_fnirs_spread_bads info))) /\
   _fnirs_check_bads (_fnirs_spread_bads info) = Ok tt).
Proof.
  split; [apply spread_bads_eq|]. intros N A. split.
  - intros i c Hc K. rewrite spread_bads_eq, spread_names_In.
    intros (ii & Hii & Hx & _).
    destruct (adjacent_pair_names info ii A Hii)
      as (c1 & c2 & H1 & H2 & K1 & K2 & E).
    rewrite E in Hx. pose proof (name_at info i _ Hc) as Hi.
    destruct Hx as [Hx|[Hx|[]]].
    + pose proof (name_at info ii _ H1) as H1'. rewrite Hx in H1'.
      pose proof (distinct_names info _ _ _ N Hi H1'). subst i. congruence.
    + pose proof (name_at info (S ii) _ H2) as H2'. rewrite Hx in H2'.
      pose proof (distinct_names info _ _ _ N Hi H2'). subst i. congruence.
  - apply check_bads_passes.
    change (pair_starts (_fnirs_spread_bads info)) with (pair_starts info).
    intros ii Hii.
    change (pair_names (_fnirs_spread_bads info) ii) with (pair_names info ii).
    rewrite spread_bads_eq. intros (a & Ha & Hb & U).
    assert (T : hit (bads info) (pair_names info ii) = true).
    { rewrite <- hit_spread by assumption. apply hit_iff. eauto. }
    destruct (adjacent_pair_names info ii A Hii)
      as (c1 & c2 & H1 & H2 & _ & _ & E).
    assert (S1 : In (ch_name c1) (spread_names info)).
    { apply spread_names_In. exists ii.
      repeat split; [exact Hii|rewrite E; simpl; auto|exact T]. }
    assert (S2 : In (ch_name c2) (spread_names info)).
    { apply spread_names_In. exists ii.
      repeat split; [exact Hii|rewrite E; simpl; auto|exact T]. }
    rewrite E in U.
    pose proof (U (ch_name c1) (or_introl eq_refl) S1) as U1.
    pose proof (U (ch_name c2) (or_intror (or_introl eq_refl)) S2) as U2.
    pose proof (name_at info ii _ H1) as N1.
    pose proof (name_at info (S ii) _ H2) as N2.
    rewrite U1 in N1. rewrite U2 in N2.
    pose proof (distinct_names info _ _ _ N N1 N2). lia.
Qed.

Lemma spread_bads_result_witness :
  bads (_fnirs_spread_bads info_stim_bad) = spread_names info_stim_bad /\
  ((forall i c, nth_error (chs info_stim_bad) i = Some c ->
                has_type fnirs_types c = false ->
                ~ In (ch_name c) (bads (_fnirs_spread_bads info_stim_bad))) /\
   _fnirs_check_bads (_fnirs_spread_bads info_stim_bad) = Ok tt).
Proof.
  split.
  - apply (proj1 (spread_bads_result info_stim_bad)).
  - apply (proj2 (spread_bads_result info_stim_bad)).
    + repeat constructor; simpl; intuition discriminate.
    + apply (@adjacent_cons 0 []). constructor.
Defined.

(** ** Names of a pair *)

Lemma some_of_head p rest g r :
  some_of p rest = Some (g, r) ->
  exists c g' rest', g = String c g' /\ rest = String c rest'.
Proof.
  unfold some_of. destruct rest as [|c rest']; simpl; [discriminate|].
  destruct (p c).
  - destruct (span p rest') as [a b]. intros H. inversion H. eauto.
  - discriminate.
Qed.

(** A name with a haemoglobin label does not match the wavelength pattern. *)
Lemma hb_not_wavelength name src det g :
  _S_D_H_RE name = Some (src, det, g) -> is_hb g = true ->
  _S_D_F_RE name = None.
Proof.
  unfold _S_D_H_RE, _S_D_F_RE.
  destruct (S_D_prefix name) as [[[s d] rest]|]; [|discriminate].
  destruct (some_of is_word rest) as [[w r]|] eqn:W; [|discriminate].
  intros H Hb. inversion H; subst.
  apply some_of_head in W as (c & g' & rest' & -> & ->).
  assert (C : c = "h"%char).
  { unfold is_hb in Hb. apply orb_true_iff in Hb as [Hb|Hb];
      apply String.eqb_eq in Hb; inversion Hb; reflexivity. }
  subst c. reflexivity.
Qed.

Lemma good_pair_parse v0 v1 name1 name2 throw_errors picks :
  good_pair v0 v1 name1 name2 ->
  exists p, parse_pair throw_errors name1 name2 picks = Ok p /\
            picks_after p = picks /\
            forall more, pair_mismatch p (v0 :: v1 :: more) = Ok false.
Proof.
  intros (src & det & g1 & g2 & [(F1 & F2 & E1 & E2)|(H1 & H2 & B1 & B2 & E1 & E2)]).
  - unfold parse_pair. rewrite F1, F2.
    eexists. split; [reflexivity|]. split; [reflexivity|].
    intros more. unfold pair_mismatch, subscript.
    cbn [ch1_name_info ch2_name_info values group bind nth_error].
    rewrite !String.eqb_refl. cbn [negb]. rewrite E1, E2. reflexivity.
  - unfold parse_pair.
    rewrite (hb_not_wavelength name1 src det g1 H1 B1).
    rewrite H1, H2, B1, B2. cbn [negb orb bind].
    eexists. split; [reflexivity|]. split; [reflexivity|].
    intros more. unfold pair_mismatch, subscript.
    cbn [ch1_name_info ch2_name_info values group bind nth_error].
    rewrite !String.eqb_refl. cbn [negb]. rewrite E1, E2. reflexivity.
Qed.

Lemma good_pair_checked info v0 v1 more throw_errors ii c1 c2 picks :
  nth_error (chs info) ii = Some c1 ->
  nth_error (chs info) (S ii) = Some c2 ->
  good_pair v0 v1 (ch_name c1) (ch_name c2) ->
  check_pair info (v0 :: v1 :: more) throw_errors ii picks = Ok picks.
Proof.
  intros H1 H2 G. unfold check_pair, subscript.
  rewrite H1. replace (ii + 1) with (S ii) by lia. rewrite H2. simpl.
  destruct (good_pair_parse v0 v1 _ _ throw_errors picks G) as (p & P & A & M).
  rewrite P. simpl. rewrite M. simpl. now rewrite A.
Qed.

Lemma paired_loop info v0 v1 more throw_errors l :
  paired_from info v0 v1 l ->
  forall picks,
    for_each (evens l) (check_pair info (v0 :: v1 :: more) throw_errors) picks
    = Ok picks.
Proof.
  induction 1 as [|i c1 c2 rest H1 H2 G _ _ IH]; intros picks; [reflexivity|].
  cbn [evens for_each].
  rewrite (good_pair_checked info v0 v1 more throw_errors i c1 c2 picks H1 H2 G).
  apply IH.
Qed.

Lemma paired_even info v0 v1 l :
  paired_from info v0 v1 l -> length l mod 2 = 0.
Proof.
  induction 1 as [|i c1 c2 rest _ _ _ _ _ IH]; [reflexivity|].
  cbn [length]. replace (S (S (length rest))) with (length rest + 1 * 2) by lia.
  now rewrite Nat.Div0.mod_add.
Qed.

Lemma paired_bads info v0 v1 l :
  paired_from info v0 v1 l ->
  forall ii, In ii (evens l) ->
             ~ exactly_one_bad (bads info) (pair_names info ii).
Proof.
  induction 1 as [|i c1 c2 rest H1 H2 _ B _ IH]; intros ii; simpl;
    [intros []|].
  intros [<-|Hii]; [|now apply IH].
  now rewrite pair_names_eq, (name_at info i _ H1), (name_at info (S i) _ H2).
Qed.

(** ** Wavelengths *)

Lemma wavelengths_present info l :
  (forall ii, In ii l ->
              exists c, nth_error (chs info) ii = Some c /\ has_wavelength c) ->
  exists fs, map_result (wavelength_of info) l = Ok fs /\
             existsb is_nan fs = false.
Proof.
  induction l as [|ii l IH]; intros H; cbn [map_result].
  - exists []. auto.
  - destruct (H ii (or_introl eq_refl)) as (c & Hc & f & Hf & Nf).
    destruct IH as (fs & E & Nfs); [intros; apply H; now right|].
    exists (f :: fs). unfold wavelength_of at 1, subscript.
    rewrite Hc. cbn [bind]. rewrite Hf. cbn [bind]. rewrite E. cbn [bind].
    cbn [existsb]. now rewrite Nf, Nfs.
Qed.

(** C1: for a record whose fNIRS channels are correctly paired, channels of
    one family, in pairs of adjacent channels that share source and detector
    and carry the two expected values in order, with a wavelength at loc[9]
    of every wavelength channel and bad labels on both members of a pair or
    on none, [_check_channels_ordered] raises no error and returns the
    indices of all fNIRS channels. *)
Theorem correctly_paired_accepted (info : Info) (pair_vals : list pyval)
  (throw_errors : bool) :
  correctly_paired info pair_vals ->
  _check_channels_ordered info pair_vals throw_errors = Ok (fnirs_picks info).
Proof.
  intros [F (v0 & v1 & more & -> & P) W].
  unfold _check_channels_ordered, ordering_checks.
  fold (wavelength_of info).
  rewrite (picks_one_family info F).
  assert (M : (0 <? length (_picks_to_idx_types info wave_types))
              && (0 <? length (_picks_to_idx_types info chroma_types)) = false).
  { unfold _picks_to_idx_types. destruct F as [F|F];
      rewrite (proj2 (picks_from_nil 0 _ (chs info)) F); simpl;
      [reflexivity|apply andb_false_r]. }
  rewrite M. cbn [bind].
  rewrite (paired_even info v0 v1 _ P). cbn [Nat.eqb negb bind].
  destruct (wavelengths_present info (_picks_to_idx_types info wave_types))
    as (fs & E & N).
  { intros ii Hii. apply picks_In in Hii as (c & Hc & K).
    exists c. split; [exact Hc|]. apply W; [|exact K].
    now apply nth_error_In with ii. }
  rewrite E. cbn [bind]. rewrite N. cbn [bind].
  rewrite (paired_loop info v0 v1 more throw_errors _ P). cbn [bind].
  rewrite check_bads_passes; [reflexivity|].
  apply (paired_bads info v0 v1 _ P).
Qed.

Lemma correctly_paired_accepted_witness :
  _check_channels_ordered info_amp wavelengths true = Ok (fnirs_picks info_amp)
  /\ _check_channels_ordered info_hb chromophores true
     = Ok (fnirs_picks info_hb).
Proof.
  split.
  - apply (correctly_paired_accepted info_amp wavelengths true).
    split.
    + right. intros c [<-|[<-|[]]]; reflexivity.
    + eexists _, _, _. split; [reflexivity|].
      apply (@paired_cons info_amp _ _ 0 amp_760 amp_850 []);
        try reflexivity; [| |constructor].
      * exists "1"%string, "1"%string, "760"%string, "850"%string. left.
        repeat split; vm_compute; reflexivity.
      * intros (a & _ & [] & _).
    + intros c [<-|[<-|[]]] _; eexists; split; reflexivity.
  - apply (correctly_paired_accepted info_hb chromophores true).
    split.
    + left. intros c [<-|[<-|[]]]; reflexivity.
    + eexists _, _, _. split; [reflexivity|].
      apply (@paired_cons info_hb _ _ 0 hbo_1 hbr_1 []);
        try reflexivity; [| |constructor].
      * exists "1"%string, "1"%string, "hbo"%string, "hbr"%string. right.
        repeat split; vm_compute; reflexivity.
      * intros (a & _ & _ & U).
        assert (E : "S1_D1 hbo"%string = "S1_D1 hbr"%string).
        { transitivity a; [|symmetry]; apply U; simpl; auto. }
        discriminate.
    + intros c [<-|[<-|[]]] K; discriminate.
Defined.

(** ** The non-throwing mode *)

Lemma mod2_SS n : S (S n) mod 2 = n mod 2.
Proof.
  replace (S (S n)) with (n + 1 * 2) by lia. apply Nat.Div0.mod_add.
Qed.

Lemma evens_next l n :
  StronglySorted lt l -> length l mod 2 = 0 ->
  (forall x, In x l -> x < n) ->
  forall ii, In ii (evens l) -> S ii < n.
Proof.
  induction l as [|x|x y l IH] using list_pair_ind; intros HS E B ii; simpl.
  - intros [].
  - discriminate E.
  - cbn [length] in E. rewrite mod2_SS in E.
    apply StronglySorted_inv in HS as [HS Hx].
    pose proof (Forall_inv Hx) as Hxy.
    apply StronglySorted_inv in HS as [HS _].
    intros [<-|Hii].
    + assert (y < n) by (apply B; simpl; auto). lia.
    + apply IH; auto. intros z Hz. apply B. simpl. auto.
Qed.

(** The end of an iteration for names that both match a pattern. *)
Lemma pair_tested p v0 v1 more s1 d1 g1 s2 d2 g2 a b :
  ch1_name_info p = Some (s1, d1, g1) ->
  ch2_name_info p = Some (s2, d2, g2) ->
  values p = Some (a, b) ->
  (bad <- pair_mismatch p (v0 :: v1 :: more) ;;
   if bad : bool then
     subscript (v0 :: v1 :: more) 0 ;;;
     subscript (v0 :: v1 :: more) 1 ;;;
     _throw_or_return_empty NotOrdered false
   else Ok (picks_after p))
  = Ok (if negb (String.eqb s1 s2) || negb (String.eqb d1 d2)
           || py_ne a v0 || py_ne b v1
        then [] else picks_after p).
Proof.
  intros M1 M2 V. unfold pair_mismatch, subscript. rewrite M1, M2, V.
  cbn [group bind nth_error].
  destruct (String.eqb s1 s2); cbn [negb orb bind]; [|reflexivity].
  destruct (String.eqb d1 d2); cbn [negb orb bind]; [|reflexivity].
  destruct (py_ne a v0); cbn [negb orb bind]; [reflexivity|].
  destruct (py_ne b v1); reflexivity.
Qed.

Lemma orb4_false a b c d :
  negb a || negb b || c || d = false ->
  a = true /\ b = true /\ c = false /\ d = false.
Proof. destruct a, b, c, d; simpl; intuition discriminate. Qed.

(** Without throwing, an iteration on two parsed names keeps [picks] or
    empties it, and empties it when the pair is not as expected. *)
Lemma check_pair_quiet info v0 v1 more ii c1 c2 picks :
  nth_error (chs info) ii = Some c1 ->
  nth_error (chs info) (S ii) = Some c2 ->
  _S_D_H_RE (ch_name c1) <> None -> _S_D_H_RE (ch_name c2) <> None ->
  exists r, check_pair info (v0 :: v1 :: more) false ii picks = Ok r /\
            (r = picks \/ r = []) /\
            (~ good_pair v0 v1 (ch_name c1) (ch_name c2) -> r = []).
Proof.
  intros H1 H2 P1 P2. unfold check_pair, subscript at 1 2.
  rewrite H1. replace (ii + 1) with (S ii) by lia. rewrite H2. cbn [bind].
  destruct (_S_D_H_RE (ch_name c1)) as [[[hs1 hd1] hg1]|] eqn:E1;
    [|congruence].
  destruct (_S_D_H_RE (ch_name c2)) as [[[hs2 hd2] hg2]|] eqn:E2;
    [|congruence].
  assert (Hcase :
    (exists p s1 d1 g1 s2 d2 g2,
        parse_pair false (ch_name c1) (ch_name c2) picks = Ok p /\
        _S_D_F_RE (ch_name c1) = Some (s1, d1, g1) /\
        _S_D_F_RE (ch_name c2) = Some (s2, d2, g2) /\
        ch1_name_info p = Some (s1, d1, g1) /\
        ch2_name_info p = Some (s2, d2, g2) /\
        values p = Some (PyFloat (py_float g1), PyFloat (py_float g2)) /\
        picks_after p = picks)
    \/
    (exists p,
        parse_pair false (ch_name c1) (ch_name c2) picks = Ok p /\
        ch1_name_info p = Some (hs1, hd1, hg1) /\
        ch2_name_info p = Some (hs2, hd2, hg2) /\
        values p = Some (PyStr hg1, PyStr hg2) /\
        picks_after p = (if negb (is_hb hg1) || negb (is_hb hg2)
                         then [] else picks))).
  { unfold parse_pair.
    destruct (_S_D_F_RE (ch_name c1)) as [[[s1 d1] g1]|] eqn:F1;
      destruct (_S_D_F_RE (ch_name c2)) as [[[s2 d2] g2]|] eqn:F2.
    - left. eexists _, s1, d1, g1, s2, d2, g2. repeat split.
    - right. rewrite E1, E2. unfold _throw_or_return_empty.
      destruct (negb (is_hb hg1) || negb (is_hb hg2));
        eexists; repeat split.
    - right. rewrite E1, E2. unfold _throw_or_return_empty.
      destruct (negb (is_hb hg1) || negb (is_hb hg2));
        eexists; repeat split.
    - right. rewrite E1, E2. unfold _throw_or_return_empty.
      destruct (negb (is_hb hg1) || negb (is_hb hg2));
        eexists; repeat split. }
  destruct Hcase as [(p & s1 & d1 & g1 & s2 & d2 & g2 & P & F1 & F2 & M1 & M2 & V & A)
                    |(p & P & M1 & M2 & V & A)];
    rewrite P; cbn [bind];
    rewrite (pair_tested p v0 v1 more _ _ _ _ _ _ _ _ M1 M2 V), A.
  - eexists. split; [reflexivity|]. split.
    + destruct (_ || _); auto.
    + intros NG.
      destruct (negb (String.eqb s1 s2) || negb (String.eqb d1 d2)
                || py_ne (PyFloat (py_float g1)) v0
                || py_ne (PyFloat (py_float g2)) v1) eqn:B; [reflexivity|].
      apply orb4_false in B as (Bs & Bd & B0 & B1).
      apply String.eqb_eq in Bs, Bd. subst s2 d2.
      elim NG. exists s1, d1, g1, g2. left. auto.
  - eexists. split; [reflexivity|]. split.
    + destruct (_ || _ || _ || _); auto.
      destruct (negb (is_hb hg1) || negb (is_hb hg2)); auto.
    + intros NG.
      destruct (negb (String.eqb hs1 hs2) || negb (String.eqb hd1 hd2)
                || py_ne (PyStr hg1) v0 || py_ne (PyStr hg2) v1) eqn:B;
        [reflexivity|].
      destruct (is_hb hg1) eqn:B1; [|reflexivity].
      destruct (is_hb hg2) eqn:B2; [|reflexivity].
      apply orb4_false in B as (Bs & Bd & B0 & B1').
      apply String.eqb_eq in Bs, Bd. subst hs2 hd2.
      elim NG. exists hs1, hd1, hg1, hg2. right. auto 10.
Qed.

Lemma quiet_loop info v0 v1 more l :
  (forall ii, In ii l ->
     exists c1 c2,
       nth_error (chs info) ii = Some c1 /\
       nth_error (chs info) (S ii) = Some c2 /\
       _S_D_H_RE (ch_name c1) <> None /\ _S_D_H_RE (ch_name c2) <> None) ->
  forall picks,
  exists r,
    for_each l (check_pair info (v0 :: v1 :: more) false) picks = Ok r /\
    (r = picks \/ r = []) /\
    ((exists ii c1 c2,
        In ii l /\ nth_error (chs info) ii = Some c1 /\
        nth_error (chs info) (S ii) = Some c2 /\
        ~ good_pair v0 v1 (ch_name c1) (ch_name c2)) -> r = []).
Proof.
  induction l as [|ii l IH]; intros H picks; cbn [for_each].
  - exists picks. split; [reflexivity|]. split; [now left|].
    intros (ii & c1 & c2 & [] & _).
  - destruct (H ii (or_introl eq_refl)) as (c1 & c2 & H1 & H2 & P1 & P2).
    destruct (check_pair_quiet info v0 v1 more ii c1 c2 picks H1 H2 P1 P2)
      as (r1 & E1 & K1 & B1).
    rewrite E1. cbn [bind].
    destruct (IH (fun j Hj => H j (or_intror Hj)) r1) as (r & E & K & B).
    exists r. split; [exact E|]. split.
    + destruct K as [-> | ->]; auto.
    + intros (jj & d1 & d2 & [<-|Hjj] & D1 & D2 & NG).
      * rewrite H1 in D1. rewrite H2 in D2.
        injection D1 as <-. injection D2 as <-.
        rewrite (B1 NG) in K. destruct K as [-> | ->]; reflexivity.
      * apply B. exists jj, d1, d2. auto.
Qed.

Lemma wavelengths_read info l :
  (forall ii, In ii l ->
     exists c f, nth_error (chs info) ii = Some c /\
                 nth_error (loc c) 9 = Some f) ->
  exists fs, map_result (wavelength_of info) l = Ok fs /\
             forall ii c f, In ii l -> nth_error (chs info) ii = Some c ->
                            nth_error (loc c) 9 = Some f -> In f fs.
Proof.
  induction l as [|ii l IH]; intros H; cbn [map_result].
  - exists []. split; [reflexivity|]. intros ii c f [].
  - destruct (H ii (or_introl eq_refl)) as (c & f & Hc & Hf).
    destruct IH as (fs & E & I); [intros; apply H; now right|].
    exists (f :: fs). unfold wavelength_of at 1, subscript.
    rewrite Hc. cbn [bind]. rewrite Hf. cbn [bind]. rewrite E. cbn [bind].
    split; [reflexivity|].
    intros jj c' f' [<-|Hjj] Hc' Hf'.
    + left. congruence.
    + right. now apply (I jj c' f').
Qed.

Lemma pair_in_range info ii :
  length (fnirs_picks info) mod 2 = 0 -> In ii (pair_starts info) ->
  exists c1 c2, nth_error (chs info) ii = Some c1 /\
                nth_error (chs info) (S ii) = Some c2.
Proof.
  intros E Hii.
  assert (L : S ii < length (chs info)).
  { apply (evens_next (fnirs_picks info)); auto.
    - apply picks_from_sorted.
    - intros x Hx. apply picks_In in Hx as (c & Hc & _).
      apply nth_error_Some. congruence. }
  destruct (nth_error (chs info) ii) as [c1|] eqn:H1;
    [|apply nth_error_None in H1; lia].
  destruct (nth_error (chs info) (S ii)) as [c2|] eqn:H2;
    [|apply nth_error_None in H2; lia].
  eauto.
Qed.

(** What the checks before the bad labels give without throwing. *)
Lemma ordering_quiet info v0 v1 more :
  (reaches_loop info -> parseable info) ->
  (forall c, In c (chs info) -> has_type wave_types c = true ->
             exists f, nth_error (loc c) 9 = Some f) ->
  violation info v0 v1 ->
  ordering_checks info (v0 :: v1 :: more) false = Ok [].
Proof.
  intros PA LW V. unfold ordering_checks. fold (wavelength_of info).
  destruct (wavelengths_read info (_picks_to_idx_types info wave_types))
    as (fs & E & Hfs).
  { intros ii Hii. apply picks_In in Hii as (c & Hc & K).
    destruct (LW c (nth_error_In _ _ Hc) K) as (f & Hf). eauto. }
  rewrite E. unfold _throw_or_return_empty.
  assert (Z : forall (b : bool),
             (picks <- (if b then Ok [] else Ok []) ;;
              for_each (evens picks)
                (check_pair info (v0 :: v1 :: more) false) picks) = Ok []).
  { intros []; reflexivity. }
  destruct ((0 <? length (_picks_to_idx_types info wave_types))
            && (0 <? length (_picks_to_idx_types info chroma_types))) eqn:M;
    cbn [bind]; [apply Z|].
  assert (F : one_family info).
  { unfold _picks_to_idx_types in M.
    apply andb_false_iff in M as [M|M]; [left|right];
      apply picks_from_nil with 0;
      destruct (picks_from 0 _ (chs info)); [reflexivity|discriminate
                                            |reflexivity|discriminate]. }
  rewrite (picks_one_family info F).
  destruct (length (fnirs_picks info) mod 2 =? 0) eqn:EV;
    cbn [negb bind]; [|apply Z].
  apply Nat.eqb_eq in EV.
  destruct (existsb is_nan fs) eqn:N; cbn [bind]; [reflexivity|].
  fold (pair_starts info).
  assert (RL : reaches_loop info).
  { split; [exact F|]. split; [exact EV|].
    intros c f Hc K Hf. destruct (is_nan f) eqn:Nf; [|reflexivity].
    apply In_nth_error in Hc as (ii & Hc).
    assert (I : In f fs).
    { apply (Hfs ii c f); auto. apply picks_In. eauto. }
    assert (T : existsb is_nan fs = true) by (apply existsb_exists; eauto).
    congruence. }
  destruct (quiet_loop info v0 v1 more (pair_starts info)) with
    (picks := fnirs_picks info) as (r & R & _ & B).
  { intros ii Hii.
    destruct (pair_in_range info ii EV Hii) as (c1 & c2 & H1 & H2).
    destruct (PA RL ii c1 c2 Hii H1 H2). eauto 6. }
  rewrite R. f_equal.
  destruct V as [c c' Hc Hc' K K'| O | c f Hc K Hf Nf | ii c1 c2 Hii H1 H2 NG].
  - destruct F as [F|F]; [rewrite (F c Hc) in K|rewrite (F c' Hc') in K'];
      discriminate.
  - rewrite <- Nat.bit0_mod, Nat.bit0_odd in EV. rewrite O in EV. discriminate.
  - apply In_nth_error in Hc as (ii & Hc).
    assert (I : In f fs).
    { apply (Hfs ii c f); auto. apply picks_In. eauto. }
    assert (T : existsb is_nan fs = true) by (apply existsb_exists; eauto).
    congruence.
  - apply B. exists ii, c1, c2. auto.
Qed.

Lemma swapped_not_good :
  ~ good_pair (PyFloat 760) (PyFloat 850) (ch_name amp_850) (ch_name amp_760).
Proof.
  intros (src & det & g1 & g2 & [(F1 & F2 & E1 & E2)|(H1 & H2 & B1 & _)]).
  - vm_compute in F1. injection F1 as <- <- <-.
    vm_compute in E1. discriminate.
  - vm_compute in H1. injection H1 as <- <- <-.
    vm_compute in B1. discriminate.
Qed.

Lemma unnamed_not_good :
  ~ good_pair (PyFloat 760) (PyFloat 850) "Fp1" "Fp2".
Proof.
  intros (src & det & g1 & g2 & [(F1 & _)|(H1 & _)]); discriminate.
Qed.

(** The claim about the non-throwing mode fails in two ways.  A pair in the
    wrong order of which one member is marked bad raises the error of the
    bad labels, which no flag turns off.  A pair of names of neither form
    empties [picks], and the comparison that follows asks a match that is
    [None] for its groups. *)
Lemma quiet_mode_raises :
  (violation info_swapped_bad (PyFloat 760) (PyFloat 850) /\
   _check_channels_ordered info_swapped_bad wavelengths false
   = Raise RuntimeError) /\
  (violation info_unnamed (PyFloat 760) (PyFloat 850) /\
   _check_channels_ordered info_unnamed wavelengths false
   = Raise AttributeError).
Proof.
  split; split; try (vm_compute; reflexivity).
  - apply (@bad_pair info_swapped_bad _ _ 0 amp_850 amp_760);
      [now left|reflexivity|reflexivity|apply swapped_not_good].
  - apply (@bad_pair info_unnamed _ _ 0
             (mk_channel "Fp1" fnirs_od PrimFloat.one)
             (mk_channel "Fp2" fnirs_od PrimFloat.one));
      [now left|reflexivity|reflexivity|apply unnamed_not_good].
Qed.

(** *** Names that can not be parsed *)

Lemma digit_word c : is_digit c = true -> is_word c = true.
Proof. unfold is_word. now intros ->. Qed.

(** A name that matches the wavelength pattern matches the other one too. *)
Lemma wavelength_is_word name g :
  _S_D_F_RE name = Some g -> _S_D_H_RE name <> None.
Proof.
  unfold _S_D_F_RE, _S_D_H_RE.
  destruct (S_D_prefix name) as [[[src det] rest]|]; [|discriminate].
  destruct (some_of is_digit rest) as [[ip r1]|] eqn:D; [|discriminate].
  intros _. unfold some_of in *.
  destruct rest as [|c rest']; cbn [span] in *; [discriminate|].
  destruct (is_digit c) eqn:C; [|discriminate].
  rewrite (digit_word c C). destruct (span is_word rest'). discriminate.
Qed.

(** Without throwing, a pair with a name of neither form stops the loop:
    [picks] is emptied and the next statement asks a match that is [None]
    for its groups. *)
Lemma unparsed_pair_raises info pair_vals ii c1 c2 picks :
  nth_error (chs info) ii = Some c1 ->
  nth_error (chs info) (S ii) = Some c2 ->
  _S_D_H_RE (ch_name c1) = None \/ _S_D_H_RE (ch_name c2) = None ->
  check_pair info pair_vals false ii picks = Raise AttributeError.
Proof.
  intros H1 H2 U. unfold check_pair, subscript at 1 2.
  rewrite H1. replace (ii + 1) with (S ii) by lia. rewrite H2. cbn [bind].
  assert (P : exists m1 m2,
             parse_pair false (ch_name c1) (ch_name c2) picks
             = Ok {| ch1_name_info := m1; ch2_name_info := m2;
                     values := None; picks_after := [] |}
             /\ (m1 = None \/ m2 = None)).
  { unfold parse_pair.
    destruct (_S_D_F_RE (ch_name c1)) as [[[s1 d1] g1]|] eqn:F1;
      destruct (_S_D_F_RE (ch_name c2)) as [[[s2 d2] g2]|] eqn:F2;
      try (apply wavelength_is_word in F1);
      try (apply wavelength_is_word in F2);
      destruct U as [U|U]; try contradiction; rewrite U;
      try (destruct (_S_D_H_RE (ch_name c1)) as [[[? ?] ?]|]);
      try (destruct (_S_D_H_RE (ch_name c2)) as [[[? ?] ?]|]);
      try contradiction; eexists _, _; split; try reflexivity; auto. }
  destruct P as (m1 & m2 & -> & N). cbn [bind].
  unfold pair_mismatch. cbn [ch1_name_info ch2_name_info].
  destruct N as [-> | ->]; [reflexivity|].
  destruct m1 as [[[? ?] ?]|]; reflexivity.
Qed.

(** The docstring promises an empty array when the channels are not
    sufficiently formatted and [throw_errors] is [False]; for a record of
    one family, with wavelengths, whose first pair has a name of neither
    form, the call raises [AttributeError]. *)
Theorem unparsed_names_raise (info : Info) (pair_vals : list pyval)
  (ii : nat) (rest : list nat) (c1 c2 : channel) :
  one_family info ->
  fnirs_picks info = ii :: rest ->
  length (fnirs_picks info) mod 2 = 0 ->
  (forall c, In c (chs info) -> has_type wave_types c = true ->
             has_wavelength c) ->
  nth_error (chs info) ii = Some c1 ->
  nth_error (chs info) (S ii) = Some c2 ->
  _S_D_H_RE (ch_name c1) = None \/ _S_D_H_RE (ch_name c2) = None ->
  _check_channels_ordered info pair_vals false = Raise AttributeError.
Proof.
  intros F P E W H1 H2 U.
  unfold _check_channels_ordered, ordering_checks.
  fold (wavelength_of info).
  rewrite (picks_one_family info F).
  assert (M : (0 <? length (_picks_to_idx_types info wave_types))
              && (0 <? length (_picks_to_idx_types info chroma_types)) = false).
  { unfold _picks_to_idx_types. destruct F as [F|F];
      rewrite (proj2 (picks_from_nil 0 _ (chs info)) F); simpl;
      [reflexivity|apply andb_false_r]. }
  rewrite M. cbn [bind]. rewrite E. cbn [Nat.eqb negb bind].
  destruct (wavelengths_present info (_picks_to_idx_types info wave_types))
    as (fs & Efs & N).
  { intros jj Hjj. apply picks_In in Hjj as (c & Hc & K).
    exists c. split; [exact Hc|]. apply W; [|exact K].
    now apply nth_error_In with jj. }
  rewrite Efs. cbn [bind]. rewrite N. cbn [bind].
  rewrite P.
  assert (V : exists l, evens (ii :: rest) = ii :: l)
    by (destruct rest; cbn [evens]; eauto).
  destruct V as (l & ->). cbn [for_each].
  now rewrite (unparsed_pair_raises info pair_vals ii c1 c2 _ H1 H2 U).
Qed.

Lemma unparsed_names_raise_witness :
  _check_channels_ordered info_unnamed wavelengths false = Raise AttributeError.
Proof.
  apply (unparsed_names_raise info_unnamed wavelengths 0 [1]
           (mk_channel "Fp1" fnirs_od PrimFloat.one)
           (mk_channel "Fp2" fnirs_od PrimFloat.one));
    try reflexivity.
  - right. intros c [<-|[<-|[]]]; reflexivity.
  - intros c [<-|[<-|[]]] _; eexists; split; reflexivity.
  - left. reflexivity.
Defined.

(** C2, amended: for a record with an entry at loc[9] of every wavelength
    channel and consistent bad labels that breaks a rule (both families, an
    odd number of fNIRS channels, a wavelength that is not a number, labels
    other than hbo and hbr, or a pair with different sources or detectors or
    other values than the expected two), [_check_channels_ordered] with
    [throw_errors=False] raises no exception and returns an empty result,
    provided that the names of the pairs follow the common form whenever
    the loop visits them, that is, whenever the record passes the three
    checks before the loop. *)
Theorem violations_return_empty (info : Info) (v0 v1 : pyval)
  (more : list pyval) :
  (reaches_loop info -> parseable info) ->
  (forall c, In c (chs info) -> has_type wave_types c = true ->
             exists f, nth_error (loc c) 9 = Some f) ->
  (forall ii, In ii (pair_starts info) ->
              ~ exactly_one_bad (bads info) (pair_names info ii)) ->
  violation info v0 v1 ->
  _check_channels_ordered info (v0 :: v1 :: more) false = Ok [].
Proof.
  intros PA LW BC V. unfold _check_channels_ordered.
  rewrite (ordering_quiet info v0 v1 more PA LW V). cbn [bind].
  now rewrite (check_bads_passes info BC).
Qed.

Lemma violations_return_empty_witness :
  _check_channels_ordered info_swapped wavelengths false = Ok [] /\
  _check_channels_ordered info_odd wavelengths false = Ok [].
Proof.
  split.
  - apply (violations_return_empty info_swapped
             (PyFloat 760) (PyFloat 850) []).
    + intros _ ii c1 c2 [<-|[]] H1 H2.
      injection H1 as <-. injection H2 as <-. split; discriminate.
    + intros c [<-|[<-|[]]] _; eexists; reflexivity.
    + intros ii _ (a & _ & [] & _).
    + apply (@bad_pair info_swapped _ _ 0 amp_850 amp_760);
        [now left|reflexivity|reflexivity|apply swapped_not_good].
  - apply (violations_return_empty info_odd (PyFloat 760) (PyFloat 850) []).
    + intros (_ & E & _). discriminate E.
    + intros c [<-|[<-|[<-|[<-|[]]]]] _; eexists; reflexivity.
    + intros ii _ (a & _ & [] & _).
    + apply odd_count. reflexivity.
Defined.

(** ** Binary64 arithmetic *)

(** Facts about the primitive operations, through their specification on
    [spec_float]. *)
Module Binary64.

(** The cases of a rounded result: the two shifts, then the mantissa. *)
Ltac round_cases :=
  unfold binary_round_aux;
  destruct (shr_fexp prec emax _ _ _) as [? ?];
  match goal with
  | |- context [shr_fexp prec emax ?m ?e loc_Exact] =>
      destruct (shr_fexp prec emax m e loc_Exact) as [? ?]
  end;
  match goal with
  | |- context [shr_m ?r] => destruct (shr_m r)
  end.

Lemma round_sign_only s s' m e l :
  SFabs (binary_round_aux prec emax s m e l)
  = SFabs (binary_round_aux prec emax s' m e l).
Proof.
  round_cases; try reflexivity.
  destruct (Z.leb _ _); reflexivity.
Qed.

Lemma normalize_opp m e :
  SFabs (binary_normalize prec emax (- m) e false)
  = SFabs (binary_normalize prec emax m e false).
Proof.
  destruct m; simpl; try reflexivity; unfold binary_round;
    destruct (shl_align _ _ _); apply round_sign_only.
Qed.

Lemma SFsub_swap x y :
  SFabs (SFsub prec emax x y) = SFabs (SFsub prec emax y x).
Proof.
  destruct x as [[]|[]| |sx mx ex], y as [[]|[]| |sy my ey];
    try reflexivity.
  unfold SFsub. rewrite (Z.min_comm ey ex).
  rewrite <- normalize_opp. f_equal. f_equal. lia.
Qed.

Lemma SFmul_abs x : SFmul prec emax x x = SFmul prec emax (SFabs x) (SFabs x).
Proof. destruct x as [[]|[]| |[] m e]; reflexivity. Qed.

Lemma sq_diff_sym (a b : float) :
  ((a - b) * (a - b) = (b - a) * (b - a))%float.
Proof.
  apply Prim2SF_inj. rewrite !mul_spec, !sub_spec.
  unfold SF64mul, SF64sub.
  rewrite SFmul_abs, (SFmul_abs (SFsub _ _ (Prim2SF b) _)).
  now rewrite SFsub_swap.
Qed.

(** A rounded result has the sign it was given when it is a zero. *)
Lemma round_zero_sign s m e l s' :
  binary_round_aux prec emax s m e l = S754_zero s' -> s' = s.
Proof.
  round_cases; try discriminate.
  - congruence.
  - destruct (Z.leb _ _); discriminate.
Qed.

Lemma SFmul_self_zero x s : SFmul prec emax x x = S754_zero s -> s = false.
Proof.
  destruct x as [[]|[]| |[] m e]; simpl; try discriminate; try congruence;
    intros H; now apply round_zero_sign in H.
Qed.

Lemma add_zero_sq (d : float) : (0 + d * d = d * d)%float.
Proof.
  apply Prim2SF_inj. rewrite add_spec, mul_spec.
  change (Prim2SF 0) with (S754_zero false).
  unfold SF64add, SF64mul.
  destruct (SFmul prec emax (Prim2SF d) (Prim2SF d)) as [s| | |] eqn:E;
    try reflexivity.
  apply SFmul_self_zero in E. now subst s.
Qed.

Lemma SFeqb_zero x : SFeqb x (S754_zero false) = true -> exists s, x = S754_zero s.
Proof.
  destruct x as [s|[]| |[] m e]; try discriminate. intros _. now exists s.
Qed.

Lemma SFeqb_finite s1 m1 e1 s2 m2 e2 :
  SFeqb (S754_finite s1 m1 e1) (S754_finite s2 m2 e2) = true ->
  s1 = s2 /\ m1 = m2 /\ e1 = e2.
Proof.
  unfold SFeqb, SFcompare.
  destruct s1, s2; try discriminate;
    destruct (Z.compare e1 e2) eqn:E; try discriminate;
    apply Z.compare_eq in E;
    destruct (Pos.compare_cont Eq m1 m2) eqn:M; try discriminate;
    apply Pos.compare_eq in M; auto.
Qed.

Lemma finite_spec a :
  is_finite a = true ->
  match Prim2SF a with
  | S754_zero _ | S754_finite _ _ _ => True
  | _ => False
  end.
Proof.
  unfold is_finite, is_nan, is_infinity.
  rewrite !eqb_spec, abs_spec.
  change (Prim2SF infinity) with (S754_infinity false).
  destruct (Prim2SF a) as [[]|[]| |[] m e]; simpl; auto; discriminate.
Qed.

(** The difference of two equal finite numbers is a zero, its square [0]. *)
Lemma sq_diff_equal (a b : float) :
  is_finite a = true -> (a =? b)%float = true ->
  ((a - b) * (a - b) = 0)%float.
Proof.
  intros F E. apply finite_spec in F. rewrite eqb_spec in E.
  apply Prim2SF_inj. rewrite mul_spec, sub_spec.
  change (Prim2SF 0) with (S754_zero false).
  unfold SF64mul, SF64sub.
  destruct (Prim2SF a) as [sa|sa| |sa ma ea]; try contradiction;
    destruct (Prim2SF b) as [sb|sb| |sb mb eb]; try discriminate;
    try (destruct sa; discriminate); try (destruct sb; discriminate).
  - destruct sa, sb; reflexivity.
  - apply SFeqb_finite in E as (-> & -> & ->).
    unfold SFsub. now rewrite Z.sub_diag.
Qed.

(** ** Sums of squares and square roots do not round to zero *)

Local Open Scope Z_scope.

Lemma digits2_bound m : 2 ^ (Zpos (digits2_pos m) - 1) <= Zpos m.
Proof.
  induction m as [m IH|m IH|]; cbn [digits2_pos].
  - rewrite Pos2Z.inj_succ.
    replace (Z.succ (Zpos (digits2_pos m)) - 1)
      with (Z.succ (Zpos (digits2_pos m) - 1)) by lia.
    rewrite Z.pow_succ_r by lia. lia.
  - rewrite Pos2Z.inj_succ.
    replace (Z.succ (Zpos (digits2_pos m)) - 1)
      with (Z.succ (Zpos (digits2_pos m) - 1)) by lia.
    rewrite Z.pow_succ_r by lia. lia.
  - reflexivity.
Qed.

Lemma shr_1_m mrs : 0 <= shr_m mrs -> shr_m (shr_1 mrs) = shr_m mrs / 2.
Proof.
  destruct mrs as [m r s]. cbn [shr_m shr_1].
  destruct m as [|[p|p|]|p]; intros H; cbn [shr_m]; try lia;
    try reflexivity.
  - apply Z.div_unique with 1; lia.
  - apply Z.div_unique with 0; lia.
Qed.

Lemma iter_shr_m p :
  forall mrs, 0 <= shr_m mrs ->
              shr_m (iter_pos shr_1 p mrs) = shr_m mrs / 2 ^ Zpos p.
Proof.
  induction p as [p IH|p IH|]; intros mrs H; cbn [iter_pos].
  - assert (H1 : 0 <= shr_m (shr_1 mrs))
      by (rewrite shr_1_m by lia; apply Z.div_pos; lia).
    assert (H2 : 0 <= shr_m (iter_pos shr_1 p (shr_1 mrs)))
      by (rewrite IH by lia; apply Z.div_pos; lia).
    rewrite IH, IH, shr_1_m by lia.
    rewrite !Z.div_div by lia. f_equal.
    replace (Zpos p~1) with (1 + Zpos p + Zpos p) by lia.
    rewrite Z.pow_add_r, Z.pow_add_r, Z.pow_1_r by lia. lia.
  - assert (H2 : 0 <= shr_m (iter_pos shr_1 p mrs))
      by (rewrite IH by lia; apply Z.div_pos; lia).
    rewrite IH, IH by lia.
    rewrite !Z.div_div by lia. f_equal.
    replace (Zpos p~0) with (Zpos p + Zpos p) by lia.
    rewrite Z.pow_add_r by lia. lia.
  - now apply shr_1_m.
Qed.

Lemma shr_record_m m l : shr_m (shr_record_of_loc m l) = m.
Proof. destruct l as [|[]]; reflexivity. Qed.

(** Above the least exponent a shift to the format keeps a positive
    mantissa positive. *)
Lemma shr_fexp_pos m e l mrs e' :
  emin <= e ->
  shr_fexp prec emax (Zpos m) e l = (mrs, e') ->
  0 < shr_m mrs /\ emin <= e'.
Proof.
  intros He. unfold shr_fexp, shr. cbn [Zdigits2].
  pose proof (digits2_bound m) as D.
  destruct (fexp prec emax (Zpos (digits2_pos m) + e) - e) as [|p|p] eqn:N;
    intros H; inversion H; subst; clear H;
    try (rewrite shr_record_m; split; lia).
  rewrite iter_shr_m by (rewrite shr_record_m; lia).
  rewrite shr_record_m.
  unfold fexp, SpecFloat.emin, prec, emax in *.
  split; [|lia].
  apply Z.div_str_pos. split; [lia|].
  apply Z.le_trans with (2 ^ (Zpos (digits2_pos m) - 1)); [|exact D].
  apply Z.pow_le_mono_r; lia.
Qed.

Lemma round_nearest_even_pos m l : 0 < m -> 0 < round_nearest_even m l.
Proof.
  intros H. destruct l as [|[]]; cbn [round_nearest_even]; try lia.
  destruct (Z.even m); lia.
Qed.

Lemma round_pos_nonzero s m e l s' :
  emin <= e -> binary_round_aux prec emax s (Zpos m) e l <> S754_zero s'.
Proof.
  intros He. unfold binary_round_aux.
  destruct (shr_fexp prec emax (Zpos m) e l) as [mrs1 e1] eqn:E1.
  apply shr_fexp_pos in E1 as [P1 He1]; [|exact He].
  pose proof (round_nearest_even_pos _ (loc_of_shr_record mrs1) P1) as P.
  destruct (round_nearest_even (shr_m mrs1) (loc_of_shr_record mrs1))
    as [|m2|m2]; try lia.
  destruct (shr_fexp prec emax (Zpos m2) e1 loc_Exact) as [mrs2 e2] eqn:E2.
  apply shr_fexp_pos in E2 as [P2 _]; [|exact He1].
  destruct (shr_m mrs2); try lia.
  destruct (Z.leb e2 (emax - prec)); discriminate.
Qed.

Lemma valid_emin s m e :
  valid_binary (S754_finite s m e) = true -> emin <= e.
Proof.
  cbn [SpecFloat.valid_binary]. unfold bounded, canonical_mantissa.
  intros H. apply andb_prop in H as [H _].
  apply (proj1 (Z.eqb_eq _ _)) in H. unfold fexp in H. lia.
Qed.

Lemma round_sq_like m e l : sq_like (binary_round_aux prec emax false m e l).
Proof.
  round_cases; cbn; auto.
  destruct (_ <=? _); reflexivity.
Qed.

Lemma SFmul_sq_like x : sq_like (SFmul prec emax x x).
Proof.
  destruct x as [[]|[]| |[] m e]; cbn [SFmul xorb]; try reflexivity;
    apply round_sq_like.
Qed.

Lemma fexp_emin x : emin <= fexp prec emax x.
Proof. unfold fexp. lia. Qed.

Lemma round_nonzero s m e s' :
  emin <= e -> binary_round prec emax s m e <> S754_zero s'.
Proof.
  intros He. unfold binary_round.
  destruct (shl_align m e (fexp prec emax (Zpos (digits2_pos m) + e)))
    as [mz ez] eqn:A.
  apply round_pos_nonzero.
  unfold shl_align in A.
  pose proof (fexp_emin (Zpos (digits2_pos m) + e)).
  destruct (fexp prec emax (Zpos (digits2_pos m) + e) - e);
    inversion A; subst; assumption.
Qed.

(** A sum of two such values is a zero only when both are. *)
Lemma SFadd_zero x y s :
  sq_like x -> sq_like y ->
  valid_binary x = true -> valid_binary y = true ->
  SFadd prec emax x y = S754_zero s ->
  x = S754_zero false /\ y = S754_zero false.
Proof.
  destruct x as [sx|sx| |sx mx ex], y as [sy|sy| |sy my ey];
    cbn [sq_like]; intros Sx Sy Vx Vy; subst; cbn [SFadd];
    try discriminate; auto.
  apply valid_emin in Vx, Vy.
  cbn [cond_Zopp Z.add]. cbn [binary_normalize].
  intros H. apply round_nonzero in H; [destruct H|lia].
Qed.

Lemma SFadd_sq_like x y :
  sq_like x -> sq_like y -> sq_like (SFadd prec emax x y).
Proof.
  destruct x as [sx|sx| |sx mx ex], y as [sy|sy| |sy my ey];
    cbn [sq_like]; intros Sx Sy; subst; cbn [SFadd sq_like]; auto.
  cbn [cond_Zopp Z.add binary_normalize]. unfold binary_round.
  destruct (shl_align _ _ _). apply round_sq_like.
Qed.

Lemma SFsqrt_zero x s :
  valid_binary x = true -> SFsqrt prec emax x = S754_zero s ->
  x = S754_zero s.
Proof.
  destruct x as [sx|[]| |[] m e]; cbn [SFsqrt]; try discriminate; auto.
  intros V. apply valid_emin in V.
  unfold SFsqrt_core_binary. cbn [Zdigits2].
  set (e' := Z.min (fexp prec emax (Z.div2 (Zpos (digits2_pos m) + e + 1)))
                   (Z.div2 e)).
  assert (E1 : emin <= e').
  { pose proof (fexp_emin (Z.div2 (Zpos (digits2_pos m) + e + 1))).
    assert (emin <= Z.div2 e).
    { rewrite Z.div2_div. apply Z.div_le_lower_bound; [lia|].
      unfold SpecFloat.emin, prec, emax in *. lia. }
    unfold e'. lia. }
  assert (E2 : 0 <= e - 2 * e').
  { assert (2 * Z.div2 e <= e)
      by (rewrite Z.div2_div; apply Z.mul_div_le; lia).
    unfold e'. lia. }
  set (m' := match e - 2 * e' with
             | Zpos _ => Z.shiftl (Zpos m) (e - 2 * e')
             | Z0 => Zpos m
             | Zneg _ => Z0
             end).
  assert (M : 0 < m').
  { unfold m'. destruct (e - 2 * e') eqn:D; try lia.
    rewrite Z.shiftl_mul_pow2 by lia.
    apply Z.mul_pos_pos; [lia|]. apply Z.pow_pos_nonneg; lia. }
  pose proof (Z.sqrtrem_spec m' (Z.lt_le_incl _ _ M)) as Q.
  destruct (Z.sqrtrem m') as [q r].
  assert (Pq : 0 < q) by nia.
  destruct q as [|q|q]; try lia.
  intros H. now apply round_pos_nonzero in H.
Qed.

Lemma sqrt_sum_zero (q0 q1 q2 : float) :
  (sqrt (q0 * q0 + q1 * q1 + q2 * q2) =? 0)%float = true ->
  (q0 * q0 = 0 /\ q1 * q1 = 0 /\ q2 * q2 = 0)%float.
Proof.
  intros H. rewrite eqb_spec in H.
  change (Prim2SF 0) with (S754_zero false) in H.
  apply SFeqb_zero in H as [s H]. rewrite sqrt_spec in H.
  apply SFsqrt_zero in H; [|apply Prim2SF_valid].
  assert (Q : forall q, sq_like (Prim2SF (q * q)))
    by (intros q; rewrite mul_spec; apply SFmul_sq_like).
  assert (Q01 : sq_like (Prim2SF (q0 * q0 + q1 * q1)))
    by (rewrite add_spec; apply SFadd_sq_like; apply Q).
  rewrite add_spec in H.
  apply SFadd_zero in H as [H01 H2]; auto using Prim2SF_valid.
  rewrite add_spec in H01.
  apply SFadd_zero in H01 as [H0 H1]; auto using Prim2SF_valid.
  repeat split; apply Prim2SF_inj; assumption.
Qed.

(** ** Rounded results are numbers of the format *)

Lemma digits2_upper m : Zpos m < 2 ^ Zpos (digits2_pos m).
Proof.
  induction m as [m IH|m IH|]; cbn [digits2_pos];
    rewrite ?Pos2Z.inj_succ, ?Z.pow_succ_r by lia; lia.
Qed.

(** The number of binary digits of a number that is not negative. *)
Lemma Zdigits2_spec m :
  0 < m -> 0 < Zdigits2 m /\ 2 ^ (Zdigits2 m - 1) <= m < 2 ^ Zdigits2 m.
Proof.
  destruct m as [|p|p]; try lia. intros _. cbn [Zdigits2].
  pose proof (digits2_bound p). pose proof (digits2_upper p). lia.
Qed.

Lemma Zdigits2_unique m k :
  2 ^ (k - 1) <= m < 2 ^ k -> 0 < m -> Zdigits2 m = k.
Proof.
  intros B P. destruct (Zdigits2_spec m P) as [D S].
  assert (K : 0 <= k).
  { destruct (Z.lt_ge_cases k 0) as [N|N]; [|exact N].
    rewrite (Z.pow_neg_r 2 k N) in B. lia. }
  destruct (Z.lt_trichotomy (Zdigits2 m) k) as [L|[E|G]]; [|exact E|].
  - assert (2 ^ Zdigits2 m <= 2 ^ (k - 1)) by (apply Z.pow_le_mono_r; lia).
    lia.
  - assert (2 ^ k <= 2 ^ (Zdigits2 m - 1)) by (apply Z.pow_le_mono_r; lia).
    lia.
Qed.

Lemma Zdigits2_nonneg m : 0 <= Zdigits2 m.
Proof. destruct m; cbn [Zdigits2]; lia. Qed.

(** The digits that a shift to the right leaves. *)
Lemma Zdigits2_shift m n :
  0 < m -> 0 <= n ->
  Zdigits2 (m / 2 ^ n) = Z.max 0 (Zdigits2 m - n).
Proof.
  intros P N. destruct (Zdigits2_spec m P) as [D [L U]].
  assert (P2 : 0 < 2 ^ n) by (apply Z.pow_pos_nonneg; lia).
  destruct (Z.le_gt_cases (Zdigits2 m) n) as [G|G].
  - assert (2 ^ Zdigits2 m <= 2 ^ n) by (apply Z.pow_le_mono_r; lia).
    rewrite Z.div_small by lia. cbn [Zdigits2]. lia.
  - rewrite Z.max_r by lia. apply Zdigits2_unique.
    + split.
      * apply Z.div_le_lower_bound; [exact P2|].
        rewrite <- Z.pow_add_r by lia.
        replace (n + (Zdigits2 m - n - 1)) with (Zdigits2 m - 1) by lia.
        exact L.
      * apply Z.div_lt_upper_bound; [exact P2|].
        rewrite <- Z.pow_add_r by lia.
        replace (n + (Zdigits2 m - n)) with (Zdigits2 m) by lia.
        exact U.
    + apply Z.div_str_pos. split; [exact P2|].
      apply Z.le_trans with (2 ^ (Zdigits2 m - 1)); [|exact L].
      apply Z.pow_le_mono_r; lia.
Qed.

(** The digits of the next number. *)
Lemma Zdigits2_succ m :
  0 <= m ->
  Zdigits2 (m + 1) = Zdigits2 m \/
  (Zdigits2 (m + 1) = Zdigits2 m + 1 /\ m + 1 = 2 ^ Zdigits2 m).
Proof.
  intros P. destruct (Z.eq_dec m 0) as [->|NZ]; [right; split; reflexivity|].
  destruct (Zdigits2_spec m) as [D [L U]]; [lia|].
  destruct (Z.eq_dec (m + 1) (2 ^ Zdigits2 m)) as [E|NE].
  - right. split; [|exact E]. apply Zdigits2_unique; [|lia].
    replace (Zdigits2 m + 1 - 1) with (Zdigits2 m) by lia.
    rewrite Z.pow_add_r, Z.pow_1_r by lia. lia.
  - left. apply Zdigits2_unique; lia.
Qed.

Lemma shr_fexp_spec m e l mrs e' :
  0 <= m -> e <= fexp prec emax (Zdigits2 m + e) ->
  shr_fexp prec emax m e l = (mrs, e') ->
  shr_m mrs = m / 2 ^ (fexp prec emax (Zdigits2 m + e) - e) /\
  e' = fexp prec emax (Zdigits2 m + e).
Proof.
  intros P N. unfold shr_fexp, shr.
  destruct (fexp prec emax (Zdigits2 m + e) - e) as [|p|p] eqn:D;
    intros H; inversion H; subst; clear H; try lia.
  - rewrite shr_record_m, Z.pow_0_r, Z.div_1_r. lia.
  - rewrite iter_shr_m by (rewrite shr_record_m; lia).
    rewrite shr_record_m. lia.
Qed.

Lemma round_nearest_even_next m l :
  round_nearest_even m l = m \/ round_nearest_even m l = m + 1.
Proof.
  destruct l as [|[]]; cbn [round_nearest_even]; auto.
  destruct (Z.even m); auto.
Qed.

(** A number brought to the format is rounded to a number of the format. *)
Lemma round_aux_valid s m e l :
  0 < m -> e <= fexp prec emax (Zdigits2 m + e) ->
  valid_binary (binary_round_aux prec emax s m e l) = true.
Proof.
  intros P N. unfold binary_round_aux.
  destruct (shr_fexp prec emax m e l) as [mrs1 e1] eqn:E1.
  apply shr_fexp_spec in E1 as [M1 X1]; [|lia|exact N].
  pose proof (Zdigits2_shift m (fexp prec emax (Zdigits2 m + e) - e) P) as D1.
  rewrite <- M1 in D1. specialize (D1 ltac:(lia)).
  assert (P1 : 0 <= shr_m mrs1)
    by (rewrite M1; apply Z.div_pos; [lia|apply Z.pow_pos_nonneg; lia]).
  set (m2 := round_nearest_even (shr_m mrs1) (loc_of_shr_record mrs1)).
  assert (R : m2 = shr_m mrs1 \/ m2 = shr_m mrs1 + 1)
    by apply round_nearest_even_next.
  pose proof (Zdigits2_succ (shr_m mrs1) P1) as S1.
  assert (P2 : 0 <= m2) by lia.
  destruct (shr_fexp prec emax m2 e1 loc_Exact) as [mrs2 e2] eqn:E2.
  assert (N2 : e1 <= fexp prec emax (Zdigits2 m2 + e1)).
  { pose proof (Zdigits2_nonneg m). pose proof (Zdigits2_nonneg (shr_m mrs1)).
    unfold fexp, SpecFloat.emin, prec, emax in *.
    destruct R as [-> | ->]; [lia|]. destruct S1 as [-> |[-> _]]; lia. }
  apply shr_fexp_spec in E2 as [M2 X2]; [|exact P2|exact N2].
  destruct (shr_m mrs2) as [|m3|m3] eqn:M3; try reflexivity.
  destruct (Z.leb_spec e2 (emax - prec)) as [B|B]; [|reflexivity].
  cbn [valid_binary]. unfold bounded, canonical_mantissa.
  apply andb_true_intro. split; [|now apply Z.leb_le].
  apply Z.eqb_eq.
  assert (P3 : 0 < m2).
  { destruct (Z.eq_dec m2 0) as [Z0|]; [|lia].
    rewrite Z0 in M2, N2. rewrite Z.div_0_l in M2; [lia|].
    apply Z.pow_nonzero; lia. }
  pose proof (Zdigits2_shift m2 (fexp prec emax (Zdigits2 m2 + e1) - e1) P3
                ltac:(lia)) as D3.
  rewrite <- M2 in D3. cbn [Zdigits2] in D3.
  pose proof (Zdigits2_nonneg m). pose proof (Zdigits2_nonneg (shr_m mrs1)).
  unfold fexp, SpecFloat.emin, prec, emax in *.
  destruct R as [R|R]; rewrite R in *; [lia|].
  destruct S1 as [S1|[S1 _]]; rewrite S1 in *; lia.
Qed.

Lemma iter_xO m d : Zpos (Pos.iter xO m d) = Zpos m * 2 ^ Zpos d.
Proof.
  change (Pos.iter xO m d) with (shift_pos d m).
  rewrite Zpower.shift_pos_correct. rewrite Zpower.Zpower_pos_nat.
  rewrite Zpower.Zpower_nat_Z, positive_nat_Z. lia.
Qed.

Lemma Zdigits2_shiftl m d :
  Zdigits2 (Zpos m * 2 ^ Zpos d) = Zdigits2 (Zpos m) + Zpos d.
Proof.
  destruct (Zdigits2_spec (Zpos m)) as [D [L U]]; [lia|].
  assert (P2 : 0 < 2 ^ Zpos d) by (apply Z.pow_pos_nonneg; lia).
  apply Zdigits2_unique; [|lia].
  replace (Zdigits2 (Zpos m) + Zpos d - 1)
    with (Zdigits2 (Zpos m) - 1 + Zpos d) by lia.
  rewrite !Z.pow_add_r by lia. nia.
Qed.

(** What [binary_round] passes on is brought to the format. *)
Lemma shl_align_fexp_spec m e mz ez :
  shl_align m e (fexp prec emax (Zpos (digits2_pos m) + e)) = (mz, ez) ->
  ez <= fexp prec emax (Zpos (digits2_pos mz) + ez) /\
  Zpos (digits2_pos mz) + ez = Zpos (digits2_pos m) + e /\
  (emin <= e -> emin <= ez).
Proof.
  pose proof (fexp_emin (Zpos (digits2_pos m) + e)) as M.
  pose proof (eq_refl (fexp prec emax (Zpos (digits2_pos m) + e))) as F.
  revert M F.
  generalize (fexp prec emax (Zpos (digits2_pos m) + e)) at 1 2 4.
  intros f M F. unfold shl_align.
  destruct (f - e) as [|p|p] eqn:D;
    intros H; injection H as <- <-; try lia.
  pose proof (Zdigits2_shiftl m p) as S. rewrite <- iter_xO in S.
  change (Zpos (digits2_pos (Pos.iter xO m p))
          = Zpos (digits2_pos m) + Zpos p) in S.
  rewrite S.
  replace (Zpos (digits2_pos m) + Zpos p + f)
    with (Zpos (digits2_pos m) + e) by lia.
  lia.
Qed.

Lemma round_valid s m e :
  valid_binary (binary_round prec emax s m e) = true.
Proof.
  unfold binary_round.
  destruct (shl_align m e (fexp prec emax (Zpos (digits2_pos m) + e)))
    as [mz ez] eqn:A.
  apply shl_align_fexp_spec in A as (N & _).
  apply round_aux_valid; [lia|exact N].
Qed.

Lemma normalize_valid m e s :
  valid_binary (binary_normalize prec emax m e s) = true.
Proof. destruct m; cbn [binary_normalize]; auto using round_valid. Qed.

Lemma SFfma_valid x y z :
  valid_binary z = true -> valid_binary (SFfma x y z) = true.
Proof.
  intros V.
  destruct x as [sx|sx| |sx mx ex], y as [sy|sy| |sy my ey];
    cbn [SFfma]; try reflexivity;
    destruct z as [sz|sz| |sz mz ez]; try reflexivity; try exact V;
    try apply normalize_valid;
    try (destruct (Bool.eqb _ _); reflexivity).
Qed.

(** The fused operation computes what its specification says. *)
Lemma fma_spec (x y z : float) :
  Prim2SF (fma x y z) = SFfma (Prim2SF x) (Prim2SF y) (Prim2SF z).
Proof.
  unfold fma. apply Prim2SF_SF2Prim, SFfma_valid, Prim2SF_valid.
Qed.

(** ** The fused square *)

(** Arithmetic on the exponents of the format. *)
Ltac format_arith :=
  unfold fexp, SpecFloat.emin, prec, emax in *;
  change IntDef.Z.max with Z.max in *;
  change IntDef.Z.sub with Z.sub in *;
  lia.

(** The fused square depends on the size of its argument only. *)
Lemma SFfma_abs x z : SFfma x x z = SFfma (SFabs x) (SFabs x) z.
Proof. destruct x as [[]|[]| |[] m e]; reflexivity. Qed.

Lemma fma_sq_sym (a b z : float) :
  fma (a - b) (a - b) z = fma (b - a) (b - a) z.
Proof.
  unfold fma. f_equal. rewrite !sub_spec. unfold SF64sub.
  rewrite SFfma_abs, (SFfma_abs (SFsub _ _ (Prim2SF b) _)).
  now rewrite SFsub_swap.
Qed.

(** A square has at least twice the digits of its root, less one. *)
Lemma digits2_square m :
  2 * Zpos (digits2_pos m) - 1 <= Zpos (digits2_pos (m * m)).
Proof.
  pose proof (digits2_bound m) as L. pose proof (digits2_upper (m * m)) as U.
  assert (Q : 2 ^ (2 * Zpos (digits2_pos m) - 2) <= Zpos (m * m)).
  { replace (2 * Zpos (digits2_pos m) - 2)
      with ((Zpos (digits2_pos m) - 1) + (Zpos (digits2_pos m) - 1)) by lia.
    rewrite Z.pow_add_r by lia. rewrite Pos2Z.inj_mul.
    assert (0 < 2 ^ (Zpos (digits2_pos m) - 1))
      by (apply Z.pow_pos_nonneg; lia).
    nia. }
  assert (T : 2 ^ (2 * Zpos (digits2_pos m) - 2)
              < 2 ^ Zpos (digits2_pos (m * m))) by lia.
  apply Z.pow_lt_mono_r_iff in T; lia.
Qed.

(** The square of a number of the format needs no shift to the left. *)
Lemma square_aligned s m e :
  valid_binary (S754_finite s m e) = true ->
  binary_round prec emax false (m * m) (e + e)
  = binary_round_aux prec emax false (Zpos (m * m)) (e + e) loc_Exact.
Proof.
  cbn [valid_binary]. unfold bounded, canonical_mantissa. intros V.
  apply andb_prop in V as [V _]. apply (proj1 (Z.eqb_eq _ _)) in V.
  unfold binary_round, shl_align.
  pose proof (digits2_square m) as Q.
  destruct (fexp prec emax (Zpos (digits2_pos (m * m)) + (e + e)) - (e + e))
    as [|p|p] eqn:D; try reflexivity.
  unfold fexp, SpecFloat.emin, prec, emax in *. lia.
Qed.

Lemma SFfma_zero_sq x :
  valid_binary x = true ->
  SFfma x x (S754_zero false) = SFmul prec emax x x.
Proof.
  destruct x as [[]|[]| |s m e]; try reflexivity. intros V.
  cbn [SFfma SFmul]. destruct s; cbn [xorb cond_Zopp binary_normalize];
    exact (square_aligned _ m e V).
Qed.

(** The first step of the fused sum is the square. *)
Lemma fma_zero_sq (v : float) : (fma v v 0 = v * v)%float.
Proof.
  apply Prim2SF_inj. rewrite fma_spec, mul_spec.
  change (Prim2SF 0) with (S754_zero false).
  apply SFfma_zero_sq, Prim2SF_valid.
Qed.

Lemma normalize_sq_like m e : 0 <= m -> sq_like (binary_normalize prec emax m e false).
Proof.
  destruct m; try lia; intros _; cbn [binary_normalize sq_like]; auto.
  unfold binary_round. destruct (shl_align _ _ _). apply round_sq_like.
Qed.

Lemma SFfma_sq_like x z : sq_like z -> sq_like (SFfma x x z).
Proof.
  intros Z.
  destruct x as [[]|[]| |[] m e]; cbn [SFfma xorb];
    destruct z as [sz|sz| |sz mz ez]; cbn [sq_like] in *; subst;
    cbn [Bool.eqb sq_like cond_Zopp]; auto;
    apply normalize_sq_like; lia.
Qed.

(** A rounded number of at least the least positive size is not a zero. *)
Lemma round_aux_nonzero s m e l s' :
  0 < m -> e <= fexp prec emax (Zdigits2 m + e) ->
  emin < Zdigits2 m + e ->
  binary_round_aux prec emax s m e l <> S754_zero s'.
Proof.
  intros P N B. unfold binary_round_aux.
  destruct (shr_fexp prec emax m e l) as [mrs1 e1] eqn:E1.
  apply shr_fexp_spec in E1 as [M1 X1]; [|lia|exact N].
  pose proof (Zdigits2_shift m (fexp prec emax (Zdigits2 m + e) - e) P
                ltac:(lia)) as D1.
  rewrite <- M1 in D1.
  assert (P1 : 0 < shr_m mrs1).
  { assert (0 < Zdigits2 (shr_m mrs1)).
    { clear M1. format_arith. }
    assert (0 <= shr_m mrs1)
      by (rewrite M1; apply Z.div_pos; [lia|apply Z.pow_pos_nonneg; lia]).
    destruct (shr_m mrs1); cbn [Zdigits2] in *; lia. }
  pose proof (round_nearest_even_pos _ (loc_of_shr_record mrs1) P1) as P2.
  destruct (round_nearest_even (shr_m mrs1) (loc_of_shr_record mrs1))
    as [|m2|m2]; try lia.
  destruct (shr_fexp prec emax (Zpos m2) e1 loc_Exact) as [mrs2 e2] eqn:E2.
  apply shr_fexp_pos in E2 as [P3 _];
    [|rewrite X1; apply fexp_emin].
  destruct (shr_m mrs2); try lia.
  destruct (Z.leb e2 (emax - prec)); discriminate.
Qed.

Lemma round_nonzero_size s m e s' :
  emin < Zpos (digits2_pos m) + e ->
  binary_round prec emax s m e <> S754_zero s'.
Proof.
  intros B. unfold binary_round.
  destruct (shl_align m e (fexp prec emax (Zpos (digits2_pos m) + e)))
    as [mz ez] eqn:A.
  apply shl_align_fexp_spec in A as (N & E & _).
  apply round_aux_nonzero; cbn [Zdigits2]; lia.
Qed.

Lemma shl_align_fst m e e' : Zpos m <= Zpos (fst (shl_align m e e')).
Proof.
  unfold shl_align. destruct (e' - e) as [|p|p]; cbn [fst]; try lia.
  rewrite iter_xO.
  assert (0 < 2 ^ Zpos p) by (apply Z.pow_pos_nonneg; lia). nia.
Qed.

Lemma shl_align_size m e e' :
  e' <= e -> e - e' < Zpos (digits2_pos (fst (shl_align m e e'))).
Proof.
  intros L. unfold shl_align.
  destruct (e' - e) as [|p|p] eqn:D; cbn [fst]; try lia.
  pose proof (Zdigits2_shiftl m p) as S. rewrite <- iter_xO in S.
  change (Zpos (digits2_pos (Pos.iter xO m p))
          = Zpos (digits2_pos m) + Zpos p) in S.
  lia.
Qed.

Lemma digits2_le a b : Zpos a <= Zpos b -> Zpos (digits2_pos a) <= Zpos (digits2_pos b).
Proof.
  intros L. pose proof (digits2_bound a). pose proof (digits2_upper b).
  assert (T : 2 ^ (Zpos (digits2_pos a) - 1) < 2 ^ Zpos (digits2_pos b)) by lia.
  apply Z.pow_lt_mono_r_iff in T; lia.
Qed.

(** A fused sum of a square and such a value is a zero only when both
    are. *)
Lemma SFfma_zero x z s :
  sq_like z -> valid_binary x = true -> valid_binary z = true ->
  SFfma x x z = S754_zero s ->
  SFmul prec emax x x = S754_zero false /\ z = S754_zero false.
Proof.
  intros Z Vx Vz.
  destruct z as [sz|sz| |sz mz ez]; cbn [sq_like] in Z; subst.
  - rewrite SFfma_zero_sq by exact Vx. intros H. split; [|reflexivity].
    rewrite H. f_equal. now apply SFmul_self_zero in H.
  - destruct x as [[]|[]| |[] m e]; discriminate.
  - destruct x as [[]|[]| |[] m e]; discriminate.
  - destruct x as [sx|sx| |sx m e]; try discriminate.
    apply valid_emin in Vz. cbn [SFfma]. intros H. exfalso. revert H.
    replace (xorb sx sx) with false by (destruct sx; reflexivity).
    cbn [cond_Zopp Z.add binary_normalize].
    apply round_nonzero_size.
    pose proof (shl_align_size mz ez (Z.min (e + e) ez) ltac:(lia)) as S.
    pose proof (digits2_le (fst (shl_align mz ez (Z.min (e + e) ez)))
                  (fst (shl_align (m * m) (e + e) (Z.min (e + e) ez))
                   + fst (shl_align mz ez (Z.min (e + e) ez)))
                  ltac:(lia)).
    lia.
Qed.

Lemma sqrt_fma_zero (q0 q1 q2 : float) :
  (sqrt (fma q2 q2 (fma q1 q1 (q0 * q0))) =? 0)%float = true ->
  (q0 * q0 = 0 /\ q1 * q1 = 0 /\ q2 * q2 = 0)%float.
Proof.
  intros H. rewrite eqb_spec in H.
  change (Prim2SF 0) with (S754_zero false) in H.
  apply SFeqb_zero in H as [s H]. rewrite sqrt_spec in H.
  apply SFsqrt_zero in H; [|apply Prim2SF_valid].
  assert (Q0 : sq_like (Prim2SF (q0 * q0)))
    by (rewrite mul_spec; apply SFmul_sq_like).
  assert (Q1 : sq_like (Prim2SF (fma q1 q1 (q0 * q0))))
    by (rewrite fma_spec; now apply SFfma_sq_like).
  rewrite fma_spec in H.
  apply SFfma_zero in H as [H2 H1]; auto using Prim2SF_valid.
  rewrite fma_spec in H1.
  apply SFfma_zero in H1 as [H1 H0]; auto using Prim2SF_valid.
  repeat split; apply Prim2SF_inj;
    [exact H0|rewrite mul_spec; exact H1|rewrite mul_spec; exact H2].
Qed.

Local Close Scope Z_scope.

End Binary64.

Import Binary64.

(** ** Distances *)

Lemma map_result_spec {A B} (f : A -> result B) (P : A -> B -> Prop) l :
  (forall x, In x l -> exists y, f x = Ok y /\ P x y) ->
  exists ys, map_result f l = Ok ys /\ Forall2 P l ys.
Proof.
  induction l as [|x l IH]; intros H; cbn [map_result].
  - exists []. split; [reflexivity|constructor].
  - destruct (H x (or_introl eq_refl)) as (y & E & Py).
    destruct IH as (ys & Es & Ps); [intros; apply H; now right|].
    exists (y :: ys). rewrite E. cbn [bind]. rewrite Es. cbn [bind].
    split; [reflexivity|now constructor].
Qed.

Lemma Forall2_nth {A B} (P : A -> B -> Prop) l ys :
  Forall2 P l ys ->
  forall k x, nth_error l k = Some x ->
              exists y, nth_error ys k = Some y /\ P x y.
Proof.
  induction 1 as [|x y l ys Pxy _ IH]; intros k a.
  - destruct k; discriminate.
  - destruct k as [|k]; cbn [nth_error].
    + intros E. injection E as <-. eauto.
    + apply IH.
Qed.

Lemma points_present ch :
  9 <= length (loc ch) ->
  exists s d, source_xyz ch = Some s /\ detector_xyz ch = Some d.
Proof.
  unfold source_xyz, detector_xyz, point.
  destruct (loc ch) as [|l0 [|l1 [|l2 [|l3 [|l4 [|l5 [|l6 [|l7 [|l8 l]]]]]]]]];
    cbn [length]; intros L; try lia.
  cbn. eauto.
Qed.

(** The two slices that the code subtracts hold the coordinates of the
    source and of the detector. *)
Lemma coordinate_slices ch x1 y1 z1 x2 y2 z2 :
  source_xyz ch = Some (x1, y1, z1) -> detector_xyz ch = Some (x2, y2, z2) ->
  slice 3 6 (loc ch) = [x1; y1; z1] /\ slice 6 9 (loc ch) = [x2; y2; z2].
Proof.
  unfold source_xyz, detector_xyz, point, slice.
  destruct (loc ch) as [|l0 [|l1 [|l2 [|l3 [|l4 [|l5 [|l6 [|l7 [|l8 l]]]]]]]]];
    cbn; try discriminate.
  intros E1 E2. injection E1 as <- <- <-. injection E2 as <- <- <-. auto.
Qed.

(** The distance of a channel is the Euclidean distance of its source and
    detector. *)
Lemma channel_distance_euclidean fused ch s d :
  source_xyz ch = Some s -> detector_xyz ch = Some d ->
  channel_distance fused ch = Ok (euclidean fused s d).
Proof.
  destruct s as [[x1 y1] z1], d as [[x2 y2] z2]. intros Hs Hd.
  destruct (coordinate_slices ch _ _ _ _ _ _ Hs Hd) as [S D].
  unfold channel_distance. rewrite S, D.
  cbn [np_sub length Nat.eqb combine map fst snd bind].
  unfold norm, dot_self, euclidean, sq_diff. cbn [fold_left].
  destruct fused; [now rewrite fma_zero_sq|now rewrite add_zero_sq].
Qed.

(** The fused operation rounds once: the square of 1 + 2^-52 is
    1 + 2^-51 + 2^-104, of which the rounded product keeps 1 + 2^-51. *)
Example fma_rounds_once :
  (fma 0x1.0000000000001p+0 0x1.0000000000001p+0 (-0x1.0000000000002p+0)
   = 0x1p-104 /\
   0x1.0000000000001p+0 * 0x1.0000000000001p+0 + -0x1.0000000000002p+0
   = 0)%float.
Proof. split; vm_compute; reflexivity. Qed.

(** Two optodes at the corners of a triangle of sides 3 and 4. *)
Example euclidean_3_4_5 fused :
  euclidean fused (3, 0, 0)%float (0, 4, 0)%float = 5%float.
Proof. destruct fused; vm_compute; reflexivity. Qed.

Lemma distances_selected fused info picks :
  (forall c, In c (chs info) -> 9 <= length (loc c)) ->
  (forall i, In i (selection info picks) -> i < length (chs info)) ->
  exists ds,
    source_detector_distances fused info picks = Ok ds /\
    length ds = length (selection info picks) /\
    forall k i c,
      nth_error (selection info picks) k = Some i ->
      nth_error (chs info) i = Some c ->
      exists s d,
        source_xyz c = Some s /\ detector_xyz c = Some d /\
        nth_error ds k = Some (euclidean fused s d).
Proof.
  intros W R. unfold source_detector_distances.
  destruct (map_result_spec (channel_distance fused)
              (fun c y => exists s d, source_xyz c = Some s /\
                                      detector_xyz c = Some d /\
                                      y = euclidean fused s d)
              (chs info))
    as (dist & E & F).
  { intros c Hc. destruct (points_present c (W c Hc)) as (s & d & Hs & Hd).
    exists (euclidean fused s d). split.
    - now apply channel_distance_euclidean.
    - eauto. }
  rewrite E. cbn [bind].
  assert (P : _picks_to_idx info picks = Ok (selection info picks)).
  { destruct picks as [l|]; [|reflexivity]. cbn [_picks_to_idx selection].
    assert (T : forallb (fun i => i <? length (chs info)) l = true).
    { apply forallb_forall. intros i Hi. apply Nat.ltb_lt. now apply R. }
    now rewrite T. }
  rewrite P. cbn [bind].
  destruct (map_result_spec (subscript dist)
              (fun i y => nth_error dist i = Some y) (selection info picks))
    as (ds & Es & Fs).
  { intros i Hi. unfold subscript.
    destruct (nth_error dist i) as [y|] eqn:N; [eauto|].
    apply nth_error_None in N. apply R in Hi.
    apply Forall2_length in F. lia. }
  exists ds. split; [exact Es|]. split.
  - symmetry. now apply Forall2_length in Fs.
  - intros k i c Hk Hi.
    destruct (Forall2_nth _ _ _ Fs k i Hk) as (y & Hy & Di).
    destruct (Forall2_nth _ _ _ F i c Hi) as (y' & Hy' & Dc).
    cbv beta in Dc. destruct Dc as (s & d & Hs & Hd & Dc).
    assert (Y : y = y') by congruence.
    exists s, d. rewrite Hy, Y, Dc. auto.
Qed.

(** C7: for a record whose location vectors have their nine entries and a
    selection of channel indices (all channels when none is given),
    [source_detector_distances] returns an array as long as the selection
    whose k-th entry is the Euclidean distance between the source
    coordinates (entries 3..5) and the detector coordinates (entries 6..8)
    of the k-th selected channel, whether the platform fuses or not. *)
Theorem source_detector_distances_spec (fused : bool) (info : Info)
  (picks : option (list nat)) :
  (forall c, In c (chs info) -> 9 <= length (loc c)) ->
  (forall i, In i (selection info picks) -> i < length (chs info)) ->
  exists ds,
    source_detector_distances fused info picks = Ok ds /\
    length ds = length (selection info picks) /\
    forall k i c,
      nth_error (selection info picks) k = Some i ->
      nth_error (chs info) i = Some c ->
      exists s d,
        source_xyz c = Some s /\ detector_xyz c = Some d /\
        nth_error ds k = Some (euclidean fused s d).
Proof.
  intros W R.
  destruct (distances_selected fused info picks W R) as (ds & E & L & N).
  exists ds. repeat split; assumption.
Qed.

Lemma info_stim_locations c : In c (chs info_stim) -> 9 <= length (loc c).
Proof. intros [<-|[<-|[<-|[]]]]; cbn; lia. Qed.

Lemma source_detector_distances_spec_witness :
  exists ds,
    source_detector_distances true info_stim (Some [2; 0]) = Ok ds /\
    length ds = length (selection info_stim (Some [2; 0])) /\
    forall k i c,
      nth_error (selection info_stim (Some [2; 0])) k = Some i ->
      nth_error (chs info_stim) i = Some c ->
      exists s d,
        source_xyz c = Some s /\ detector_xyz c = Some d /\
        nth_error ds k = Some (euclidean true s d).
Proof.
  apply (source_detector_distances_spec true info_stim (Some [2; 0])).
  - exact info_stim_locations.
  - intros i [<-|[<-|[]]]; cbn; lia.
Defined.




(** ** Symmetry and zero distances *)

Lemma euclidean_sym fused p q : euclidean fused p q = euclidean fused q p.
Proof.
  destruct p as [[x1 y1] z1], q as [[x2 y2] z2]. unfold euclidean, sq_diff.
  destruct fused.
  - now rewrite (sq_diff_sym x1 x2), (fma_sq_sym y1 y2), (fma_sq_sym z1 z2).
  - now rewrite (sq_diff_sym x1 x2), (sq_diff_sym y1 y2), (sq_diff_sym z1 z2).
Qed.

Lemma swap_points ch s d :
  source_xyz ch = Some s -> detector_xyz ch = Some d ->
  source_xyz (swap_optodes ch) = Some d /\
  detector_xyz (swap_optodes ch) = Some s.
Proof.
  unfold source_xyz, detector_xyz, point, swap_optodes, slice. cbn [loc].
  destruct (loc ch) as [|l0 [|l1 [|l2 [|l3 [|l4 [|l5 [|l6 [|l7 [|l8 l]]]]]]]]];
    cbn; try discriminate.
  intros E1 E2. injection E1 as <-. injection E2 as <-. auto.
Qed.

(** The distance of two points that coincide. *)
Lemma euclidean_equal fused s d :
  finite_point s = true -> coincide s d = true ->
  euclidean fused s d = 0%float.
Proof.
  destruct s as [[x1 y1] z1], d as [[x2 y2] z2].
  cbn [finite_point coincide]. intros F C.
  apply andb_prop in F as [F Fz]. apply andb_prop in F as [Fx Fy].
  apply andb_prop in C as [C Cz]. apply andb_prop in C as [Cx Cy].
  pose proof (sq_diff_equal x1 x2 Fx Cx) as Qx.
  pose proof (sq_diff_equal y1 y2 Fy Cy) as Qy.
  pose proof (sq_diff_equal z1 z2 Fz Cz) as Qz.
  unfold euclidean, sq_diff. destruct fused.
  - now rewrite Qx, fma_zero_sq, Qy, fma_zero_sq, Qz.
  - now rewrite Qx, Qy, Qz.
Qed.

(** The second part of the claim fails in binary64 arithmetic: a source at
    2^-600 m from its detector is not at the place of the detector, and the
    square of the difference rounds to zero, so the distance is zero,
    whether the platform fuses or not. *)
Lemma close_optodes_zero_distance :
  channel_distance false ch_near = Ok 0%float /\
  channel_distance true ch_near = Ok 0%float /\
  source_xyz ch_near = Some (0x1p-600, 0, 0)%float /\
  detector_xyz ch_near = Some (0, 0, 0)%float /\
  coincide (0x1p-600, 0, 0)%float (0, 0, 0)%float = false.
Proof. repeat split; vm_compute; reflexivity. Qed.

(** C9, amended: the distance is symmetric in its two endpoints: exchanging
    the source coordinates (entries 3..5) and the detector coordinates
    (entries 6..8) of a channel leaves its distance unchanged.  The distance
    is zero when finite source and detector coordinates coincide, and it is
    zero only when the square of every coordinate difference rounds to
    zero. *)
Theorem distance_symmetric_and_zero (fused : bool) (ch : channel)
  (s d : float * float * float) :
  source_xyz ch = Some s -> detector_xyz ch = Some d ->
  channel_distance fused (swap_optodes ch) = channel_distance fused ch /\
  (finite_point s = true -> coincide s d = true ->
   channel_distance fused ch = Ok 0%float) /\
  (forall z, channel_distance fused ch = Ok z -> (z =? 0)%float = true ->
             squares_vanish s d).
Proof.
  intros Hs Hd.
  destruct (swap_points ch s d Hs Hd) as [Ss Sd].
  rewrite (channel_distance_euclidean fused ch s d Hs Hd).
  rewrite (channel_distance_euclidean fused (swap_optodes ch) d s Ss Sd).
  split; [now rewrite euclidean_sym|]. split.
  - intros F C. now rewrite euclidean_equal.
  - destruct s as [[x1 y1] z1], d as [[x2 y2] z2].
    intros z E Z. injection E as <-.
    unfold euclidean, sq_diff in Z. unfold squares_vanish, sq_diff.
    destruct fused; [now apply sqrt_fma_zero in Z|now apply sqrt_sum_zero in Z].
Qed.

Lemma distance_symmetric_and_zero_witness :
  channel_distance true (swap_optodes amp_760) = channel_distance true amp_760 /\
  channel_distance true ch_same = Ok 0%float /\
  squares_vanish (0x1p-600, 0, 0)%float (0, 0, 0)%float.
Proof.
  split; [|split].
  - apply (distance_symmetric_and_zero true amp_760 optode_a optode_b);
      reflexivity.
  - apply (distance_symmetric_and_zero true ch_same optode_b optode_b);
      reflexivity.
  - apply (distance_symmetric_and_zero true ch_near (0x1p-600, 0, 0)%float
             (0, 0, 0)%float eq_refl eq_refl) with (z := 0%float);
      reflexivity.
Defined.

(** ** What the naming check accepts *)

Lemma pair_mismatch_value p v0 v1 more s1 d1 g1 s2 d2 g2 a b :
  ch1_name_info p = Some (s1, d1, g1) ->
  ch2_name_info p = Some (s2, d2, g2) ->
  values p = Some (a, b) ->
  pair_mismatch p (v0 :: v1 :: more)
  = Ok (negb (String.eqb s1 s2) || negb (String.eqb d1 d2)
        || py_ne a v0 || py_ne b v1).
Proof.
  intros M1 M2 V. unfold pair_mismatch, subscript. rewrite M1, M2, V.
  cbn [group bind nth_error].
  destruct (String.eqb s1 s2); cbn [negb orb bind]; [|reflexivity].
  destruct (String.eqb d1 d2); cbn [negb orb bind]; [|reflexivity].
  destruct (py_ne a v0); reflexivity.
Qed.

(** An iteration that returns either found the pair as expected and left
    [picks] alone, or emptied [picks] without throwing. *)
Lemma check_pair_returns info v0 v1 more throw_errors ii picks r :
  check_pair info (v0 :: v1 :: more) throw_errors ii picks = Ok r ->
  (throw_errors = false /\ r = []) \/
  (r = picks /\
   exists c1 c2,
     nth_error (chs info) ii = Some c1 /\
     nth_error (chs info) (S ii) = Some c2 /\
     good_pair v0 v1 (ch_name c1) (ch_name c2)).
Proof.
  unfold check_pair, subscript at 1 2.
  replace (ii + 1) with (S ii) by lia.
  destruct (nth_error (chs info) ii) as [c1|] eqn:H1; [|discriminate].
  destruct (nth_error (chs info) (S ii)) as [c2|] eqn:H2; [|discriminate].
  cbn [bind]. unfold parse_pair, _throw_or_return_empty.
  destruct (_S_D_F_RE (ch_name c1)) as [[[fs1 fd1] fg1]|] eqn:F1;
    destruct (_S_D_F_RE (ch_name c2)) as [[[fs2 fd2] fg2]|] eqn:F2.
  1: { cbn [bind].
       rewrite (pair_mismatch_value _ v0 v1 more fs1 fd1 fg1 fs2 fd2 fg2
                  (PyFloat (py_float fg1)) (PyFloat (py_float fg2)))
         by reflexivity.
       cbn [bind picks_after subscript nth_error].
       destruct (_ || _ || _ || _) eqn:B.
       - unfold subscript. cbn [nth_error bind].
         destruct throw_errors; [discriminate|].
         intros E. injection E as <-. auto.
       - intros E. injection E as <-. right. split; [reflexivity|].
         apply orb4_false in B as (Bs & Bd & B0 & B1).
         apply String.eqb_eq in Bs, Bd. subst fs2 fd2.
         exists c1, c2. repeat split; auto.
         exists fs1, fd1, fg1, fg2. left. auto. }
  all: destruct (_S_D_H_RE (ch_name c1)) as [[[hs1 hd1] hg1]|] eqn:E1;
    destruct (_S_D_H_RE (ch_name c2)) as [[[hs2 hd2] hg2]|] eqn:E2;
    try (destruct throw_errors; cbn [bind]; [discriminate|];
         unfold pair_mismatch; cbn [ch1_name_info ch2_name_info group bind];
         discriminate).
  all: destruct (is_hb hg1) eqn:B1; destruct (is_hb hg2) eqn:B2;
    cbn [negb orb]; (destruct throw_errors; cbn [bind]; try discriminate);
    rewrite (pair_mismatch_value _ v0 v1 more hs1 hd1 hg1 hs2 hd2 hg2
               (PyStr hg1) (PyStr hg2)) by reflexivity;
    cbn [bind picks_after];
    (destruct (_ || _ || _ || _) eqn:B;
     [unfold subscript; cbn [nth_error bind]; try discriminate;
      intros E; injection E as <-; auto
     |intros E; injection E as <-; auto]).
  all: right; split; [reflexivity|];
    apply orb4_false in B as (Bs & Bd & B0 & B1');
    apply String.eqb_eq in Bs, Bd; subst hs2 hd2;
    exists c1, c2; repeat split; auto;
    exists hs1, hd1, hg1, hg2; right; auto 10.
Qed.

Lemma loop_returns info v0 v1 more throw_errors l :
  forall picks r,
    for_each l (check_pair info (v0 :: v1 :: more) throw_errors) picks = Ok r ->
    (throw_errors = false /\ r = []) \/
    (r = picks /\
     forall ii, In ii l ->
       exists c1 c2,
         nth_error (chs info) ii = Some c1 /\
         nth_error (chs info) (S ii) = Some c2 /\
         good_pair v0 v1 (ch_name c1) (ch_name c2)).
Proof.
  induction l as [|ii l IH]; intros picks r; cbn [for_each].
  - intros E. injection E as <-. right. split; [reflexivity|intros ii []].
  - destruct (check_pair info (v0 :: v1 :: more) throw_errors ii picks)
      as [r1|] eqn:C; [|discriminate].
    cbn [bind]. intros E.
    apply check_pair_returns in C. apply IH in E.
    destruct C as [[T ->]|[-> G]].
    + left. split; [exact T|]. destruct E as [[_ E]|[E _]]; exact E.
    + destruct E as [E|[-> Gs]]; [now left|right].
      split; [reflexivity|]. intros jj [<-|Hjj]; auto.
Qed.

Lemma loop_accepts info v0 v1 more throw_errors l picks :
  (forall ii, In ii l ->
     exists c1 c2,
       nth_error (chs info) ii = Some c1 /\
       nth_error (chs info) (S ii) = Some c2 /\
       good_pair v0 v1 (ch_name c1) (ch_name c2)) ->
  for_each l (check_pair info (v0 :: v1 :: more) throw_errors) picks = Ok picks.
Proof.
  induction l as [|ii l IH]; intros G; cbn [for_each]; [reflexivity|].
  destruct (G ii (or_introl eq_refl)) as (c1 & c2 & H1 & H2 & Gp).
  rewrite (good_pair_checked info v0 v1 more throw_errors ii c1 c2 picks
             H1 H2 Gp).
  cbn [bind]. apply IH. intros jj Hjj. apply G. now right.
Qed.

Lemma wavelengths_returned info l fs :
  map_result (wavelength_of info) l = Ok fs ->
  forall ii, In ii l ->
    exists c f, nth_error (chs info) ii = Some c /\
                nth_error (loc c) 9 = Some f /\ In f fs.
Proof.
  revert fs; induction l as [|jj l IH]; intros fs; cbn [map_result].
  - intros _ ii [].
  - unfold wavelength_of at 1, subscript.
    destruct (nth_error (chs info) jj) as [c|] eqn:Hc; [|discriminate].
    cbn [bind].
    destruct (nth_error (loc c) 9) as [f|] eqn:Hf; [|discriminate].
    cbn [bind].
    destruct (map_result (wavelength_of info) l) as [fs'|] eqn:E;
      [|discriminate].
    cbn [bind]. intros R. injection R as <-.
    intros ii [<-|Hii].
    + exists c, f. repeat split; auto. now left.
    + destruct (IH fs' eq_refl ii Hii) as (c' & f' & H1 & H2 & H3).
      exists c', f'. repeat split; auto. now right.
Qed.

Lemma not_mixed_one_family info :
  (0 <? length (_picks_to_idx_types info wave_types))
  && (0 <? length (_picks_to_idx_types info chroma_types)) = false ->
  one_family info.
Proof.
  unfold _picks_to_idx_types. intros M.
  apply andb_false_iff in M as [M|M]; [left|right];
    apply picks_from_nil with 0;
    destruct (picks_from 0 _ (chs info)); try reflexivity; discriminate.
Qed.

Lemma one_family_not_mixed info :
  one_family info ->
  (0 <? length (_picks_to_idx_types info wave_types))
  && (0 <? length (_picks_to_idx_types info chroma_types)) = false.
Proof.
  unfold _picks_to_idx_types. intros [F|F];
    rewrite (proj2 (picks_from_nil 0 _ (chs info)) F); simpl;
    [reflexivity|apply andb_false_r].
Qed.

(** The checks before the bad labels: a result is empty, without throwing,
    or all the fNIRS picks of a record that meets every requirement. *)
Lemma ordering_returns info v0 v1 more throw_errors r :
  ordering_checks info (v0 :: v1 :: more) throw_errors = Ok r ->
  (throw_errors = false /\ r = []) \/
  (r = fnirs_picks info /\
   one_family info /\
   length (fnirs_picks info) mod 2 = 0 /\
   (forall c, In c (chs info) -> has_type wave_types c = true ->
              has_wavelength c) /\
   forall ii, In ii (pair_starts info) ->
     exists c1 c2,
       nth_error (chs info) ii = Some c1 /\
       nth_error (chs info) (S ii) = Some c2 /\
       good_pair v0 v1 (ch_name c1) (ch_name c2)).
Proof.
  unfold ordering_checks. fold (wavelength_of info).
  assert (Z : forall fs r',
             (all_freqs <- fs ;;
              picks <- (if existsb is_nan all_freqs
                        then _throw_or_return_empty MissingWavelength
                               throw_errors
                        else Ok []) ;;
              for_each (evens picks)
                (check_pair info (v0 :: v1 :: more) throw_errors) picks)
             = Ok r' -> throw_errors = false -> r' = []).
  { intros fs r' E T. subst throw_errors. unfold _throw_or_return_empty in E.
    destruct fs as [fs|]; [|discriminate].
    cbn [bind] in E. destruct (existsb is_nan fs); cbn in E; congruence. }
  destruct ((0 <? length (_picks_to_idx_types info wave_types))
            && (0 <? length (_picks_to_idx_types info chroma_types))) eqn:M.
  { unfold _throw_or_return_empty at 1.
    destruct throw_errors; [discriminate|]. cbn [bind].
    change (negb (length (@nil nat) mod 2 =? 0)) with false. cbn [bind].
    intros E. left. split; [reflexivity|]. exact (Z _ _ E eq_refl). }
  cbn [bind]. pose proof (not_mixed_one_family info M) as F.
  rewrite (picks_one_family info F).
  destruct (length (fnirs_picks info) mod 2 =? 0) eqn:EV; cbn [negb].
  2: { unfold _throw_or_return_empty at 1.
       destruct throw_errors; [discriminate|]. cbn [bind]. intros E.
       left. split; [reflexivity|].
       exact (Z _ _ E eq_refl). }
  cbn [bind]. apply Nat.eqb_eq in EV.
  destruct (map_result (wavelength_of info)
              (_picks_to_idx_types info wave_types)) as [fs|] eqn:Efs;
    [|discriminate].
  cbn [bind].
  destruct (existsb is_nan fs) eqn:N.
  { unfold _throw_or_return_empty at 1.
    destruct throw_errors; [discriminate|]. cbn. intros E.
    injection E as <-. now left. }
  cbn [bind]. fold (pair_starts info). intros E.
  apply loop_returns in E as [E|[-> G]]; [now left|right].
  repeat split; auto.
  intros c Hc K. apply In_nth_error in Hc as (ii & Hc).
  assert (Hii : In ii (_picks_to_idx_types info wave_types))
    by (apply picks_In; eauto).
  destruct (wavelengths_returned info _ fs Efs ii Hii) as (c' & f & H1 & H2 & H3).
  assert (c' = c) by congruence. subst c'.
  exists f. split; [exact H2|].
  destruct (is_nan f) eqn:Nf; [|reflexivity].
  assert (existsb is_nan fs = true) by (apply existsb_exists; eauto).
  congruence.
Qed.

Lemma ordering_accepts info v0 v1 more throw_errors :
  one_family info ->
  length (fnirs_picks info) mod 2 = 0 ->
  (forall c, In c (chs info) -> has_type wave_types c = true ->
             has_wavelength c) ->
  (forall ii, In ii (pair_starts info) ->
     exists c1 c2,
       nth_error (chs info) ii = Some c1 /\
       nth_error (chs info) (S ii) = Some c2 /\
       good_pair v0 v1 (ch_name c1) (ch_name c2)) ->
  ordering_checks info (v0 :: v1 :: more) throw_errors
  = Ok (fnirs_picks info).
Proof.
  intros F E W G. unfold ordering_checks. fold (wavelength_of info).
  rewrite (picks_one_family info F), (one_family_not_mixed info F).
  cbn [bind]. rewrite E. cbn [Nat.eqb negb bind].
  destruct (wavelengths_present info (_picks_to_idx_types info wave_types))
    as (fs & Efs & N).
  { intros ii Hii. apply picks_In in Hii as (c & Hc & K).
    exists c. split; [exact Hc|]. apply W; [|exact K].
    now apply nth_error_In with ii. }
  rewrite Efs. cbn [bind]. rewrite N. cbn [bind].
  now apply loop_accepts.
Qed.

Lemma check_bads_passes_iff info :
  _fnirs_check_bads info = Ok tt <->
  forall ii, In ii (pair_starts info) ->
             ~ exactly_one_bad (bads info) (pair_names info ii).
Proof.
  split; [|apply check_bads_passes].
  rewrite check_bads_eq.
  destruct (existsb (inconsistent info) (pair_starts info)) eqn:E;
    [discriminate|].
  intros _ ii Hii X. apply intersection_one, Nat.eqb_eq in X.
  assert (existsb (inconsistent info) (pair_starts info) = true)
    by (apply existsb_exists; exists ii; auto).
  congruence.
Qed.

(** The check in its throwing mode returns exactly for the records that
    meet its requirements, and then it returns all the fNIRS picks. *)
Theorem accepted_iff_well_formed (info : Info) (v0 v1 : pyval)
  (more : list pyval) (picks : list nat) :
  _check_channels_ordered info (v0 :: v1 :: more) true = Ok picks <->
  picks = fnirs_picks info /\ well_formed info v0 v1.
Proof.
  unfold _check_channels_ordered. split.
  - destruct (ordering_checks info (v0 :: v1 :: more) true) as [r|] eqn:O;
      [|discriminate].
    cbn [bind].
    destruct (_fnirs_check_bads info) as [[]|] eqn:B; [|discriminate].
    cbn [bind]. intros E. injection E as <-.
    apply ordering_returns in O as [[T _]|(-> & F & Ev & W & G)];
      [discriminate|].
    split; [reflexivity|]. split; auto.
    now apply check_bads_passes_iff.
  - intros [-> [F Ev W G B]].
    rewrite (ordering_accepts info v0 v1 more true F Ev W G). cbn [bind].
    now rewrite (check_bads_passes info B).
Qed.

(** [throw_errors] changes only how a failure is reported: what the
    throwing mode returns the other mode returns too, and a result of the
    other mode that is not empty is the result of the throwing mode. *)
Theorem throw_errors_reporting_only (info : Info) (v0 v1 : pyval)
  (more : list pyval) (picks : list nat) :
  (_check_channels_ordered info (v0 :: v1 :: more) true = Ok picks ->
   _check_channels_ordered info (v0 :: v1 :: more) false = Ok picks) /\
  (_check_channels_ordered info (v0 :: v1 :: more) false = Ok picks ->
   picks = [] \/
   _check_channels_ordered info (v0 :: v1 :: more) true = Ok picks).
Proof.
  unfold _check_channels_ordered. split.
  - destruct (ordering_checks info (v0 :: v1 :: more) true) as [r|] eqn:O;
      [|discriminate].
    cbn [bind]. intros E.
    apply ordering_returns in O as [[T _]|(-> & F & Ev & W & G)];
      [discriminate|].
    now rewrite (ordering_accepts info v0 v1 more false F Ev W G).
  - destruct (ordering_checks info (v0 :: v1 :: more) false) as [r|] eqn:O;
      [|discriminate].
    cbn [bind]. intros E.
    apply ordering_returns in O as [[_ ->]|(-> & F & Ev & W & G)].
    + left. destruct (_fnirs_check_bads info); [|discriminate].
      cbn in E. congruence.
    + right. now rewrite (ordering_accepts info v0 v1 more true F Ev W G).
Qed.

(** ** The two patterns *)

Local Open Scope string_scope.

Lemma span_spec p s a b :
  span p s = (a, b) <->
  s = a ++ b /\ all_of p a = true /\ stops p b = true.
Proof.
  split.
  - revert a b; induction s as [|c s IH]; intros a b; cbn [span].
    + intros E. injection E as <- <-. auto.
    + destruct (p c) eqn:C.
      * destruct (span p s) as [a' b'] eqn:S. intros E. injection E as <- <-.
        destruct (IH a' b' eq_refl) as (-> & A & B).
        cbn [append all_of]. rewrite C. auto.
      * intros E. injection E as <- <-. cbn [append all_of stops].
        rewrite C. auto.
  - intros (-> & A & B). revert A; induction a as [|c a IH]; cbn [all_of append].
    + intros _. destruct b as [|c b]; [reflexivity|].
      cbn [span stops] in *. destruct (p c); [discriminate|reflexivity].
    + intros A. apply andb_prop in A as [C A]. cbn [span].
      rewrite C, (IH A). reflexivity.
Qed.

Lemma some_of_spec p s a b :
  some_of p s = Some (a, b) <->
  a <> "" /\ s = a ++ b /\ all_of p a = true /\ stops p b = true.
Proof.
  unfold some_of. split.
  - destruct (span p s) as [a' b'] eqn:S. apply span_spec in S.
    destruct a' as [|c a']; [discriminate|].
    intros E. injection E as <- <-. split; [discriminate|exact S].
  - intros (N & S). apply span_spec in S. rewrite S.
    destruct a; [contradiction|reflexivity].
Qed.

Lemma expect_spec c s s' : expect c s = Some s' <-> s = String c s'.
Proof.
  unfold expect. destruct s as [|c' r]; [split; discriminate|].
  destruct (Ascii.eqb_spec c c') as [<-|N]; split; intros E;
    try discriminate; congruence.
Qed.

Lemma S_D_prefix_spec s src det rest :
  S_D_prefix s = Some (src, det, rest) <->
  s = "S" ++ src ++ "_D" ++ det ++ " " ++ rest /\ number src /\ number det.
Proof.
  unfold S_D_prefix, number. split.
  - destruct (expect "S" s) as [s1|] eqn:E1; [|discriminate].
    apply expect_spec in E1.
    destruct (some_of is_digit s1) as [[a s2]|] eqn:E2; [|discriminate].
    apply some_of_spec in E2 as (Na & -> & Aa & _).
    destruct (expect "_" s2) as [s3|] eqn:E3; [|discriminate].
    apply expect_spec in E3.
    destruct (expect "D" s3) as [s4|] eqn:E4; [|discriminate].
    apply expect_spec in E4.
    destruct (some_of is_digit s4) as [[b s5]|] eqn:E5; [|discriminate].
    apply some_of_spec in E5 as (Nb & -> & Ab & _).
    destruct (expect " " s5) as [s6|] eqn:E6; [|discriminate].
    apply expect_spec in E6.
    intros E. injection E as <- <- <-. subst. auto.
  - intros (-> & [Ns As] & [Nd Ad]). cbn [append expect Ascii.eqb Bool.eqb].
    assert (E2 : some_of is_digit (src ++ String "_" (String "D" (det ++ String " " rest)))
                 = Some (src, String "_" (String "D" (det ++ String " " rest))))
      by (apply some_of_spec; auto).
    rewrite E2. cbn [expect Ascii.eqb Bool.eqb].
    assert (E5 : some_of is_digit (det ++ String " " rest)
                 = Some (det, String " " rest))
      by (apply some_of_spec; auto).
    rewrite E5. reflexivity.
Qed.

(** The word pattern matches exactly the names of the standard form, and
    gives back their parts. *)
Theorem word_pattern_spec (name src det label : string) :
  _S_D_H_RE name = Some (src, det, label) <->
  exists rest,
    name = standard_name src det label rest /\
    number src /\ number det /\
    label <> "" /\ all_of is_word label = true /\ stops is_word rest = true.
Proof.
  unfold _S_D_H_RE, standard_name. split.
  - destruct (S_D_prefix name) as [[[s d] r]|] eqn:P; [|discriminate].
    apply S_D_prefix_spec in P as (-> & Ns & Nd).
    destruct (some_of is_word r) as [[w r']|] eqn:W; [|discriminate].
    apply some_of_spec in W as (Nw & -> & Aw & Sw).
    intros E. injection E as <- <- <-. exists r'. auto 10.
  - intros (rest & -> & Ns & Nd & Nw & Aw & Sw).
    rewrite (proj2 (S_D_prefix_spec _ src det (label ++ rest)))
      by auto.
    rewrite (proj2 (some_of_spec is_word (label ++ rest) label rest))
      by auto.
    reflexivity.
Qed.

Local Close Scope string_scope.

(** ** Bad labels: what spreading keeps and what it drops *)

Lemma no_fnirs_no_pairs info :
  (forall c, In c (chs info) -> has_type fnirs_types c = false) ->
  pair_starts info = [].
Proof.
  intros H. unfold pair_starts, fnirs_picks, _picks_to_idx_types.
  now rewrite (proj2 (picks_from_nil 0 _ (chs info)) H).
Qed.

(** Spreading never removes the bad label of a member of a pair, and every
    name it leaves in the bads list is the name of a channel; on a record
    without fNIRS channels it empties the bads list. *)
Theorem spread_bads_keeps_and_drops (info : Info) :
  (forall x ii, In x (bads info) -> In ii (pair_starts info) ->
                In x (pair_names info ii) ->
                In x (bads (_fnirs_spread_bads info))) /\
  (forall x, In x (bads (_fnirs_spread_bads info)) -> In x (ch_names info)) /\
  ((forall c, In c (chs info) -> has_type fnirs_types c = false) ->
   bads (_fnirs_spread_bads info) = []).
Proof.
  rewrite spread_bads_eq. repeat split.
  - intros x ii Hb Hii Hx. apply spread_names_In. exists ii.
    repeat split; auto. apply hit_iff. eauto.
  - intros x Hx. apply spread_names_In in Hx as (ii & _ & Hx & _).
    apply pair_names_In in Hx as [Hx|Hx]; eapply nth_error_In; eauto.
  - intros H. unfold spread_names. now rewrite (no_fnirs_no_pairs info H).
Qed.

Lemma spread_bads_keeps_and_drops_witness :
  In "S1_D1 760"%string (bads (_fnirs_spread_bads info_stim_bad)) /\
  bads (_fnirs_spread_bads {| chs := [stim]; bads := ["STI 014"%string] |})
  = [].
Proof.
  split.
  - apply (proj1 (spread_bads_keeps_and_drops info_stim_bad)
             "S1_D1 760"%string 0); simpl; auto.
  - apply (proj2 (proj2 (spread_bads_keeps_and_drops
                           {| chs := [stim]; bads := ["STI 014"%string] |}))).
    intros c [<-|[]]. reflexivity.
Defined.

(** Bad labels that belong to no pair never make [_fnirs_check_bads] fail:
    in particular an empty bads list, and bad labels on channels of other
    types only. *)
Theorem check_bads_ignores_other_labels (info : Info) :
  (forall x ii, In x (bads info) -> In ii (pair_starts info) ->
                ~ In x (pair_names info ii)) ->
  _fnirs_check_bads info = Ok tt.
Proof.
  intros H. apply check_bads_passes.
  intros ii Hii (a & Hw & Hb & _). exact (H a ii Hb Hii Hw).
Qed.

Lemma check_bads_ignores_other_labels_witness :
  _fnirs_check_bads
    {| chs := [amp_760; amp_850; stim]; bads := ["STI 014"%string] |} = Ok tt.
Proof.
  apply check_bads_ignores_other_labels.
  intros x ii [<-|[]] [<-|[]] [E|[E|[]]]; discriminate.
Defined.

(** ** Distances are never negative *)

Lemma SFsqrt_sq_like x : sq_like x -> sq_like (SFsqrt prec emax x).
Proof.
  destruct x as [s|s| |s m e]; cbn [sq_like]; intros S; subst;
    cbn [SFsqrt]; cbn; auto.
  destruct (SFsqrt_core_binary prec emax (Zpos m) e) as [[mz ez] lz].
  apply round_sq_like.
Qed.

Lemma dot_self_sq_like fused (x : list float) :
  sq_like (Prim2SF (dot_self fused x)).
Proof.
  unfold dot_self.
  assert (G : forall acc, sq_like (Prim2SF acc) ->
                sq_like (Prim2SF
                           (fold_left
                              (fun a v => if fused then fma v v a
                                          else (a + v * v)%float)
                              x acc))).
  { induction x as [|v x IH]; intros acc A; cbn [fold_left]; [exact A|].
    apply IH. destruct fused.
    - rewrite fma_spec. now apply SFfma_sq_like.
    - rewrite add_spec, mul_spec.
      apply SFadd_sq_like; [exact A|apply SFmul_sq_like]. }
  apply G. reflexivity.
Qed.

Lemma norm_sq_like fused (x : list float) : sq_like (Prim2SF (norm fused x)).
Proof.
  unfold norm. rewrite sqrt_spec. apply SFsqrt_sq_like, dot_self_sq_like.
Qed.

(** A value of this kind is not below a number that is zero or less. *)
Lemma sq_like_not_below d t :
  sq_like d -> SFleb t (S754_zero false) = true -> SFltb d t = false.
Proof.
  destruct d as [sd|sd| |sd md ed]; cbn [sq_like]; intros S; subst;
    destruct t as [st|[]| |[] mt et]; try discriminate; reflexivity.
Qed.

Lemma channel_distance_sq_like fused ch z :
  channel_distance fused ch = Ok z -> sq_like (Prim2SF z).
Proof.
  unfold channel_distance.
  destruct (np_sub _ _) as [d|]; [|discriminate].
  cbn [bind]. intros E. injection E as <-. apply norm_sq_like.
Qed.

Lemma map_result_In {A B} (f : A -> result B) l ys :
  map_result f l = Ok ys ->
  forall y, In y ys -> exists x, In x l /\ f x = Ok y.
Proof.
  revert ys; induction l as [|x l IH]; intros ys; cbn [map_result].
  - intros E. injection E as <-. intros y [].
  - destruct (f x) as [y0|] eqn:F; [|discriminate]. cbn [bind].
    destruct (map_result f l) as [ys'|]; [|discriminate]. cbn [bind].
    intros E. injection E as <-. intros y [<-|Hy].
    + exists x. split; [now left|exact F].
    + destruct (IH ys' eq_refl y Hy) as (x' & Hx' & Fx').
      exists x'. split; [now right|exact Fx'].
Qed.

Lemma distances_sq_like fused info picks ds :
  source_detector_distances fused info picks = Ok ds ->
  forall z, In z ds -> sq_like (Prim2SF z).
Proof.
  unfold source_detector_distances.
  destruct (map_result (channel_distance fused) (chs info)) as [dist|] eqn:D;
    [|discriminate].
  cbn [bind]. destruct (_picks_to_idx info picks) as [sel|]; [|discriminate].
  cbn [bind]. intros E z Hz.
  destruct (map_result_In _ _ _ E z Hz) as (i & _ & Hi).
  unfold subscript in Hi.
  destruct (nth_error dist i) as [z'|] eqn:N; [|discriminate].
  injection Hi as ->. apply nth_error_In in N.
  destruct (map_result_In _ _ _ D z N) as (ch & _ & Hch).
  now apply channel_distance_sq_like with fused ch.
Qed.

(** No distance is below zero, whatever the location vectors hold and
    whether the platform fuses or not: a distance is zero, positive,
    infinite or not a number.  So no channel is short for a threshold that
    is zero or negative. *)
Theorem distances_not_negative (fused : bool) (info : Info) :
  (forall picks ds z,
     source_detector_distances fused info picks = Ok ds -> In z ds ->
     (z <? 0)%float = false) /\
  (forall threshold short,
     (threshold <=? 0)%float = true ->
     short_channels fused info (Some threshold) = Ok short ->
     forall b, In b short -> b = false).
Proof.
  split.
  - intros picks ds z E Hz. rewrite ltb_spec.
    change (Prim2SF 0) with (S754_zero false).
    apply sq_like_not_below; [|reflexivity].
    now apply distances_sq_like with fused info picks ds.
  - intros threshold short T. rewrite leb_spec in T.
    change (Prim2SF 0) with (S754_zero false) in T.
    unfold short_channels.
    destruct (source_detector_distances fused info None) as [ds|] eqn:E;
      [|discriminate].
    cbn [bind]. intros R. injection R as <-.
    intros b Hb. apply in_map_iff in Hb as (z & <- & Hz).
    rewrite ltb_spec. apply sq_like_not_below; [|exact T].
    now apply distances_sq_like with fused info None ds.
Qed.

Lemma distances_not_negative_witness :
  (0x1p-5 <? 0)%float = false /\
  forall b, In b [false; false; false] -> b = false.
Proof.
  split.
  - apply (proj1 (distances_not_negative true info_stim) None
             [0x1p-5; 0x1p-5; 0x1p-5]%float 0x1p-5%float);
      [reflexivity|now left].
  - apply (proj2 (distances_not_negative true info_stim) (-0x1p-5)%float);
      reflexivity.
Defined.

(** ** Fewer than two expected values *)

Lemma pair_tested_short p pair_vals throw_errors s1 d1 g1 s2 d2 g2 a b :
  length pair_vals < 2 ->
  ch1_name_info p = Some (s1, d1, g1) ->
  ch2_name_info p = Some (s2, d2, g2) ->
  values p = Some (a, b) ->
  (bad <- pair_mismatch p pair_vals ;;
   if bad : bool then
     subscript pair_vals 0 ;;;
     subscript pair_vals 1 ;;;
     _throw_or_return_empty NotOrdered throw_errors
   else Ok (picks_after p))
  = Raise IndexError.
Proof.
  intros L M1 M2 V. unfold pair_mismatch, subscript. rewrite M1, M2, V.
  cbn [group bind].
  destruct pair_vals as [|v [|w l]]; cbn [length] in L; try lia;
    cbn [nth_error];
    destruct (String.eqb s1 s2); cbn [negb bind]; try reflexivity;
    destruct (String.eqb d1 d2); cbn [negb bind]; try reflexivity.
  destruct (py_ne a v); reflexivity.
Qed.

Lemma check_pair_found info pair_vals throw_errors ii c1 c2 picks :
  nth_error (chs info) ii = Some c1 ->
  nth_error (chs info) (S ii) = Some c2 ->
  check_pair info pair_vals throw_errors ii picks
  = (p <- parse_pair throw_errors (ch_name c1) (ch_name c2) picks ;;
     bad <- pair_mismatch p pair_vals ;;
     if bad : bool then
       subscript pair_vals 0 ;;;
       subscript pair_vals 1 ;;;
       _throw_or_return_empty NotOrdered throw_errors
     else Ok (picks_after p)).
Proof.
  intros H1 H2. unfold check_pair, subscript at 1 2.
  rewrite H1. replace (ii + 1) with (S ii) by lia. now rewrite H2.
Qed.

Lemma check_pair_short info pair_vals throw_errors ii c1 c2 picks :
  length pair_vals < 2 ->
  nth_error (chs info) ii = Some c1 ->
  nth_error (chs info) (S ii) = Some c2 ->
  _S_D_H_RE (ch_name c1) <> None -> _S_D_H_RE (ch_name c2) <> None ->
  check_pair info pair_vals throw_errors ii picks = Raise IndexError \/
  (throw_errors = true /\
   check_pair info pair_vals throw_errors ii picks
   = Raise (ValueError BadChromophore)).
Proof.
  intros L H1 H2 P1 P2.
  rewrite (check_pair_found info pair_vals throw_errors ii c1 c2 picks H1 H2).
  destruct (_S_D_H_RE (ch_name c1)) as [[[hs1 hd1] hg1]|] eqn:E1;
    [|congruence].
  destruct (_S_D_H_RE (ch_name c2)) as [[[hs2 hd2] hg2]|] eqn:E2;
    [|congruence].
  unfold parse_pair. rewrite E1, E2.
  pose (run := fun r : result pair_parse =>
                 p <- r ;;
                 bad <- pair_mismatch p pair_vals ;;
                 if bad : bool then
                   subscript pair_vals 0 ;;;
                   subscript pair_vals 1 ;;;
                   _throw_or_return_empty NotOrdered throw_errors
                 else Ok (picks_after p)).
  pose (parsed := fun picks' : list nat =>
                    {| ch1_name_info := Some (hs1, hd1, hg1);
                       ch2_name_info := Some (hs2, hd2, hg2);
                       values := Some (PyStr hg1, PyStr hg2);
                       picks_after := picks' |}).
  assert (B : forall picks', run (Ok (parsed picks')) = Raise IndexError).
  { intros picks'. unfold run, parsed. cbn [bind].
    eapply pair_tested_short; try reflexivity; exact L. }
  assert (H : let r := picks0 <- (if negb (is_hb hg1) || negb (is_hb hg2)
                                  then _throw_or_return_empty BadChromophore
                                         throw_errors
                                  else Ok picks) ;;
                       Ok (parsed picks0) in
              run r = Raise IndexError \/
              (throw_errors = true /\
               run r = Raise (ValueError BadChromophore))).
  { destruct (negb (is_hb hg1) || negb (is_hb hg2)).
    - destruct throw_errors.
      + right. split; reflexivity.
      + left. apply B.
    - left. apply B. }
  destruct (_S_D_F_RE (ch_name c1)) as [[[s1 d1] g1]|] eqn:F1;
    destruct (_S_D_F_RE (ch_name c2)) as [[[s2 d2] g2]|] eqn:F2.
  1: { left. cbn [bind]. eapply pair_tested_short; try reflexivity; exact L. }
  all: exact H.
Qed.

(** With fewer than two expected values a record that reaches the loop with
    a first pair of parsed names makes the call raise, also when
    [throw_errors] is [False]: the comparison, or the error message, reads
    an expected value that is not there. *)
Theorem short_pair_vals_raise (info : Info) (pair_vals : list pyval)
  (ii : nat) (rest : list nat) (c1 c2 : channel) :
  length pair_vals < 2 ->
  one_family info ->
  fnirs_picks info = ii :: rest ->
  length (fnirs_picks info) mod 2 = 0 ->
  (forall c, In c (chs info) -> has_type wave_types c = true ->
             has_wavelength c) ->
  nth_error (chs info) ii = Some c1 ->
  nth_error (chs info) (S ii) = Some c2 ->
  _S_D_H_RE (ch_name c1) <> None -> _S_D_H_RE (ch_name c2) <> None ->
  _check_channels_ordered info pair_vals false = Raise IndexError /\
  raises (_check_channels_ordered info pair_vals true).
Proof.
  intros L F P E W H1 H2 P1 P2.
  pose proof (check_pair_short info pair_vals false ii c1 c2
                (fnirs_picks info) L H1 H2 P1 P2) as [Q|[Q _]];
    [|discriminate].
  assert (T : exists e, check_pair info pair_vals true ii (fnirs_picks info)
                        = Raise e).
  { destruct (check_pair_short info pair_vals true ii c1 c2
                (fnirs_picks info) L H1 H2 P1 P2) as [T|[_ T]]; eauto. }
  destruct T as [e T].
  unfold raises, _check_channels_ordered, ordering_checks.
  fold (wavelength_of info).
  rewrite (picks_one_family info F), (one_family_not_mixed info F).
  cbn [bind]. rewrite E. cbn [Nat.eqb negb bind].
  destruct (wavelengths_present info (_picks_to_idx_types info wave_types))
    as (fs & Efs & N).
  { intros jj Hjj. apply picks_In in Hjj as (c & Hc & K).
    exists c. split; [exact Hc|]. apply W; [|exact K].
    now apply nth_error_In with jj. }
  rewrite Efs. cbn [bind]. rewrite N. cbn [bind].
  assert (V : exists l, evens (fnirs_picks info) = ii :: l)
    by (rewrite P; destruct rest; cbn [evens]; eauto).
  destruct V as (l & ->). cbn [for_each]. rewrite Q, T. cbn [bind].
  split; [reflexivity|eauto].
Qed.

Lemma short_pair_vals_raise_witness :
  _check_channels_ordered info_hb [PyStr "hbo"] false = Raise IndexError /\
  raises (_check_channels_ordered info_hb [PyStr "hbo"] true).
Proof.
  apply (short_pair_vals_raise info_hb [PyStr "hbo"] 0 [1] hbo_1 hbr_1);
    try reflexivity; try discriminate.
  - simpl. lia.
  - left. intros c [<-|[<-|[]]]; reflexivity.
  - intros c [<-|[<-|[]]] K; discriminate.
Defined.
